(** * pdf2docx: layout reconstruction, spacing repair and image fitting

    A shallow embedding of the core of [modern_pdf2docx_converter.py]
    (class [ModernPDF2DOCXConverter]) and of the page loop of
    [advanced_pdf2docx_converter.py], with the properties the design
    document states about them.

    Conventions of the embedding:
    - a Python [str] is a list of Unicode code points ([N]);
    - a Python [float] is an exact rational ([Q]); rounding is not modelled,
      a division by zero raises, as [ZeroDivisionError] does;
    - [re.sub] is a backtracking matcher over the regular expressions the
      source uses, with Python's priorities (leftmost match, first
      alternative first, greedy repetition);
    - a length of python-docx is kept as a number of inches; the
      difference of two lengths is a plain [int], as [int.__sub__]
      returns it, without the property [inches];
    - an exception caught by [except Exception] is a value of type [exn]. *)

From Stdlib Require Import List Bool Arith NArith ZArith QArith Qabs Lia Lqa.
From Stdlib Require Import Strings.Ascii.
From Stdlib Require Strings.String.
Import String.StringSyntax.
Delimit Scope string_scope with string.
From Stdlib Require Import QArith.Qminmax.
From Stdlib Require Import Sorting.Sorted Sorting.Permutation.
From Stdlib Require DecimalString.
Import ListNotations.

Close Scope Q_scope.

(** ** Strings and character classes *)

Module Text.

Definition char := N.
Definition str := list char.

(** A string literal of the source, as code points. *)
Definition of_string (s : String.string) : str :=
  map N_of_ascii (String.list_ascii_of_string s).
Arguments of_string s%_string.

Definition sp : char := 32%N.

Definition in_range (lo hi c : N) : bool := ((lo <=? c) && (c <=? hi))%N.

Definition in_ranges (t : list (N * N)) (c : char) : bool :=
  existsb (fun r => in_range (fst r) (snd r) c) t.

(** [[a-z]], [[A-Z]] and [[.!?]]. *)
Definition lower (c : char) : bool := in_range 97 122 c.
Definition upper (c : char) : bool := in_range 65 90 c.
Definition punct (c : char) : bool := ((c =? 46) || (c =? 33) || (c =? 63))%N.

(** [\d] on a [str] pattern: the decimal digits of Unicode (category Nd,
    Unicode 14.0, the table of CPython 3.11). *)
Definition digit_table : list (N * N) :=
  [ (48, 57); (1632, 1641); (1776, 1785); (1984, 1993); (2406, 2415);
    (2534, 2543); (2662, 2671); (2790, 2799); (2918, 2927); (3046, 3055);
    (3174, 3183); (3302, 3311); (3430, 3439); (3558, 3567); (3664, 3673);
    (3792, 3801); (3872, 3881); (4160, 4169); (4240, 4249); (6112, 6121);
    (6160, 6169); (6470, 6479); (6608, 6617); (6784, 6793); (6800, 6809);
    (6992, 7001); (7088, 7097); (7232, 7241); (7248, 7257); (42528, 42537);
    (43216, 43225); (43264, 43273); (43472, 43481); (43504, 43513);
    (43600, 43609); (44016, 44025); (65296, 65305); (66720, 66729);
    (68912, 68921); (69734, 69743); (69872, 69881); (69942, 69951);
    (70096, 70105); (70384, 70393); (70736, 70745); (70864, 70873);
    (71248, 71257); (71360, 71369); (71472, 71481); (71904, 71913);
    (72016, 72025); (72784, 72793); (73040, 73049); (73120, 73129);
    (92768, 92777); (92864, 92873); (93008, 93017); (120782, 120831);
    (123200, 123209); (123632, 123641); (125264, 125273);
    (130032, 130041) ]%N.

(** [\s] on a [str] pattern: the characters for which [str.isspace] holds. *)
Definition space_table : list (N * N) :=
  [ (9, 13); (28, 32); (133, 133); (160, 160); (5760, 5760); (8192, 8202);
    (8232, 8233); (8239, 8239); (8287, 8287); (12288, 12288) ]%N.

Definition digit : char -> bool := in_ranges digit_table.
Definition space : char -> bool := in_ranges space_table.

(** Two tables of ranges share a code point. *)
Definition overlap (r1 r2 : N * N) : bool :=
  ((fst r1 <=? snd r2) && (fst r2 <=? snd r1))%N.

Definition tables_overlap (t1 t2 : list (N * N)) : bool :=
  existsb (fun r1 => existsb (overlap r1) t2) t1.

Definition str_eqb (s t : str) : bool :=
  if list_eq_dec N.eq_dec s t then true else false.

End Text.

(** ** Regular expressions and [re.sub] *)

Module Re.
Import Text.

(** The fragment of the pattern language the source uses.  There is no
    pattern for the empty string, so a match is never empty. *)
Inductive regex : Type :=
| Chr (c : char)
| Cls (p : char -> bool)
| Cat (r1 r2 : regex)
| Alt (r1 r2 : regex)
| Plus (r : regex)
| Grp (i : nat) (r : regex).

(** Captured groups, most recent binding first. *)
Definition caps := list (nat * str).

Fixpoint group (g : caps) (i : nat) : str :=
  match g with
  | [] => []
  | (j, m) :: g' => if Nat.eqb i j then m else group g' i
  end.

(** One way of matching: the text matched, the groups, the text left. *)
Definition result : Type := str * caps * str.

Definition after (m1 : str) (g1 : caps) (r : result) : result :=
  let '(m2, g2, s2) := r in (m1 ++ m2, g2 ++ g1, s2).

(** Greedy repetition: after one match of the body, more repetitions are
    tried before stopping there. *)
Fixpoint iter (step : str -> list result) (n : nat) (s : str) : list result :=
  flat_map
    (fun r : result =>
       let '(m1, g1, s1) := r in
       match n with
       | O => []
       | S n' => map (after m1 g1) (iter step n' s1)
       end ++ [r])
    (step s).

(** What follows a first part of a match, and the capture of a group. *)
Definition then_ (k : str -> list result) (x : result) : list result :=
  let '(m1, g1, s1) := x in map (after m1 g1) (k s1).

Definition capture (i : nat) (x : result) : result :=
  let '(m, g, s') := x in (m, (i, m) :: g, s').

(** All the ways [r] matches at the start of [s], in the order the
    backtracking matcher tries them. *)
Fixpoint run (r : regex) (s : str) : list result :=
  match r with
  | Chr c =>
      match s with
      | a :: s' => if N.eqb a c then [([a], [], s')] else []
      | [] => []
      end
  | Cls p =>
      match s with
      | a :: s' => if p a then [([a], [], s')] else []
      | [] => []
      end
  | Cat r1 r2 => flat_map (then_ (run r2)) (run r1 s)
  | Alt r1 r2 => run r1 s ++ run r2 s
  | Plus r1 => iter (run r1) (length s) s
  | Grp i r1 => map (capture i) (run r1 s)
  end.

(** [pattern.match]: the first way of matching. *)
Definition re_match (r : regex) (s : str) : option result :=
  hd_error (run r s).

(** A replacement template: [\i] and literal text. *)
Inductive titem : Type :=
| Ref (i : nat)
| Txt (t : str).

Definition template := list titem.

Fixpoint expand (t : template) (g : caps) : str :=
  match t with
  | [] => []
  | Ref i :: t' => group g i ++ expand t' g
  | Txt x :: t' => x ++ expand t' g
  end.

(** [re.sub(r, repl, s)]: scan from the left; at a match, write the
    expansion of the template and go on after the matched text ([skip]
    counts the matched characters still to be passed); elsewhere copy the
    character. *)
Fixpoint sub_scan (r : regex) (repl : template) (skip : nat) (s : str) : str :=
  match s with
  | [] => []
  | c :: s' =>
      match skip with
      | S k => sub_scan r repl k s'
      | O =>
          match re_match r s with
          | Some (m, g, _) => expand repl g ++ sub_scan r repl (length m - 1) s'
          | None => c :: sub_scan r repl 0 s'
          end
      end
  end.

Definition re_sub (r : regex) (repl : template) (s : str) : str :=
  sub_scan r repl 0 s.

(** A literal word, and an alternation of literal words. *)
Fixpoint word (c : char) (w : str) : regex :=
  match w with
  | [] => Chr c
  | d :: w' => Cat (Chr c) (word d w')
  end.

Definition lit (w : str) : regex :=
  match w with
  | [] => Cls (fun _ => false)
  | c :: w' => word c w'
  end.

Fixpoint alts (w : str) (ws : list str) : regex :=
  match ws with
  | [] => lit w
  | w' :: ws' => Alt (lit w) (alts w' ws')
  end.

(** The longest prefix of characters of a class, and what follows it. *)
Fixpoint take_while (p : char -> bool) (s : str) : str :=
  match s with
  | c :: t => if p c then c :: take_while p t else []
  | [] => []
  end.

Fixpoint drop_while (p : char -> bool) (s : str) : str :=
  match s with
  | c :: t => if p c then drop_while p t else s
  | [] => []
  end.

(** A way of matching splits the text, and the part matched is not empty. *)
Definition splits (s : str) (x : result) : Prop :=
  let '(m, _, rest) := x in s = m ++ rest /\ m <> [].

End Re.

(** ** The converter's counters ([self.conversion_stats]) *)

Record Stats : Type := {
  pages_processed : nat;
  text_blocks_extracted : nat;
  images_extracted : nat;
  spacing_fixes_applied : nat
}.

Definition no_stats : Stats :=
  {| pages_processed := 0; text_blocks_extracted := 0;
     images_extracted := 0; spacing_fixes_applied := 0 |}.

Definition count_spacing_fix (st : Stats) : Stats :=
  {| pages_processed := pages_processed st;
     text_blocks_extracted := text_blocks_extracted st;
     images_extracted := images_extracted st;
     spacing_fixes_applied := S (spacing_fixes_applied st) |}.

(** ** Spacing repair ([_fix_text_spacing]) *)

Module Spacing.
Import Text Re.

(** [([a-z])([A-Z])], [([.!?])([A-Z])], [([a-z])(\d)] and [\s+]. *)
Definition lower_upper : regex := Cat (Grp 1 (Cls lower)) (Grp 2 (Cls upper)).
Definition punct_upper : regex := Cat (Grp 1 (Cls punct)) (Grp 2 (Cls upper)).
Definition lower_digit : regex := Cat (Grp 1 (Cls lower)) (Grp 2 (Cls digit)).
Definition spaces : regex := Plus (Cls space).

(** [of|and|the|in|on|at|by|for|with|to]. *)
Definition first_word : str := of_string "of".
Definition other_words : list str :=
  map of_string
      ["and"; "the"; "in"; "on"; "at"; "by"; "for"; "with"; "to"]%string.

(** [([a-z])(of|and|the|in|on|at|by|for|with|to)([A-Z])]. *)
Definition glued_word : regex :=
  Cat (Grp 1 (Cls lower))
      (Cat (Grp 2 (alts first_word other_words)) (Grp 3 (Cls upper))).

(** [r'\1 \2'], [r'\1 \2 \3'] and [' ']. *)
Definition two_groups : template := [Ref 1; Txt [sp]; Ref 2].
Definition three_groups : template := [Ref 1; Txt [sp]; Ref 2; Txt [sp]; Ref 3].
Definition one_space : template := [Txt [sp]].

Definition _fix_text_spacing (st : Stats) (text : str) : str * Stats :=
  let original_text := text in
  let text := re_sub lower_upper two_groups text in
  let text := re_sub punct_upper two_groups text in
  let text := re_sub glued_word three_groups text in
  let text := re_sub lower_digit two_groups text in
  let text := re_sub spaces one_space text in
  (text, if str_eqb text original_text then st else count_spacing_fix st).

(** The string [_fix_text_spacing] returns. *)
Definition repair (s : str) : str := fst (_fix_text_spacing no_stats s).

(** [_fix_text_spacing] with the third substitution taken out. *)
Definition _fix_text_spacing_without_glued (st : Stats) (text : str)
  : str * Stats :=
  let original_text := text in
  let text := re_sub lower_upper two_groups text in
  let text := re_sub punct_upper two_groups text in
  let text := re_sub lower_digit two_groups text in
  let text := re_sub spaces one_space text in
  (text, if str_eqb text original_text then st else count_spacing_fix st).

(** *** The five corrections, as the design document words them *)

(** A space at each boundary between a [P] character and a [Q] character. *)
Fixpoint insert_between (P Q : char -> bool) (s : str) : str :=
  match s with
  | [] => []
  | a :: t =>
      a :: match t with
           | b :: _ =>
               if P a && Q b then sp :: insert_between P Q t
               else insert_between P Q t
           | [] => []
           end
  end.

(** [w] is at the start of [s]: what follows it. *)
Fixpoint strip_prefix (w s : str) : option str :=
  match w with
  | [] => Some s
  | c :: w' =>
      match s with
      | a :: s' => if N.eqb a c then strip_prefix w' s' else None
      | [] => None
      end
  end.

(** The match of the word [w] and of an uppercase letter after it. *)
Definition word_upper (w s : str) : option result :=
  match strip_prefix w s with
  | Some (b :: rest) =>
      if upper b then Some (w ++ [b], [(3, [b]); (2, w)], rest) else None
  | _ => None
  end.

(** The first word of the list that is at the start of [s] and is followed
    by an uppercase letter: the word, the letter and the rest. *)
Fixpoint glued_at (ws : list str) (s : str) : option (str * char * str) :=
  match ws with
  | [] => None
  | w :: ws' =>
      match strip_prefix w s with
      | Some (b :: rest) =>
          if upper b then Some (w, b, rest) else glued_at ws' s
      | _ => glued_at ws' s
      end
  end.

(** Spaces around a short word glued between a lowercase letter and an
    uppercase letter. *)
Fixpoint split_glued (skip : nat) (s : str) : str :=
  match s with
  | [] => []
  | a :: t =>
      match skip with
      | S k => split_glued k t
      | O =>
          if lower a then
            match glued_at (first_word :: other_words) t with
            | Some (w, b, _) =>
                (a :: sp :: w) ++ sp :: b :: split_glued (S (length w)) t
            | None => a :: split_glued 0 t
            end
          else a :: split_glued 0 t
      end
  end.

(** A word whose last letter is a lowercase letter. *)
Fixpoint ends_lower (w : str) : bool :=
  match w with
  | [] => false
  | c :: w' =>
      match w' with
      | [] => lower c
      | _ :: _ => ends_lower w'
      end
  end.

(** Each run of whitespace becomes one space. *)
Fixpoint squeeze (in_run : bool) (s : str) : str :=
  match s with
  | [] => []
  | c :: t =>
      if space c then (if in_run then squeeze true t else sp :: squeeze true t)
      else c :: squeeze false t
  end.

Definition five_corrections (s : str) : str :=
  squeeze false
    (insert_between lower digit
       (split_glued 0
          (insert_between punct upper
             (insert_between lower upper s)))).

(** No [P] character is directly followed by a [Q] character. *)
Fixpoint no_boundary (P Q : char -> bool) (s : str) : Prop :=
  match s with
  | [] => True
  | a :: t =>
      match t with
      | b :: _ => P a && Q b = false
      | [] => True
      end /\ no_boundary P Q t
  end.

(** The characters of a string that are not whitespace. *)
Definition nonspace (s : str) : str := filter (fun c => negb (space c)) s.

(** Every whitespace character is a space and no whitespace follows it. *)
Fixpoint single_spaced (s : str) : Prop :=
  match s with
  | [] => True
  | c :: t =>
      (space c = true ->
       c = sp /\ match t with d :: _ => space d = false | [] => True end)
      /\ single_spaced t
  end.

End Spacing.

(** ** Layout reconstruction *)

Module Layout.
Import Text.
Local Open Scope Q_scope.

(** A text block of [_extract_text_with_layout]. *)
Record TextBlock : Type := {
  text : str;
  x : Q;
  y : Q;
  font_name : str;
  font_size : Q;
  matrix : list Q
}.

(** A paragraph of [_group_text_into_paragraphs]; [font_info] is the
    dictionary the source leaves empty. *)
Record Paragraph : Type := {
  text_parts : list TextBlock;
  y_position : option Q;
  font_info : list (str * str)
}.

(** [text_blocks.sort(key=lambda b: (-b['y'], b['x']))].  Tuples compare
    by their first differing component. *)
Definition sort_key (b : TextBlock) : Q * Q := (- y b, x b).

Definition Qlt_bool (a b : Q) : bool := negb (Qle_bool b a).

Definition key_lt (k1 k2 : Q * Q) : bool :=
  if Qeq_bool (fst k1) (fst k2) then Qlt_bool (snd k1) (snd k2)
  else Qlt_bool (fst k1) (fst k2).

(** [list.sort] is stable: a block goes after the blocks already placed
    whose key is not greater than its own. *)
Fixpoint insert_block (b : TextBlock) (l : list TextBlock) : list TextBlock :=
  match l with
  | [] => [b]
  | c :: l' =>
      if key_lt (sort_key b) (sort_key c) then b :: c :: l'
      else c :: insert_block b l'
  end.

Definition sort_blocks (l : list TextBlock) : list TextBlock :=
  fold_left (fun acc b => insert_block b acc) l [].

Definition y_threshold : Q := 5.

Definition empty_paragraph : Paragraph :=
  {| text_parts := []; y_position := None; font_info := [] |}.

Definition append_part (p : Paragraph) (block : TextBlock) : Paragraph :=
  {| text_parts := text_parts p ++ [block];
     y_position := y_position p;
     font_info := font_info p |}.

Definition has_parts (p : Paragraph) : bool :=
  match text_parts p with [] => false | _ :: _ => true end.

(** The body of the loop of [_group_text_into_paragraphs] on the pair
    [(paragraphs, current_paragraph)]. *)
Definition group_step (st : list Paragraph * Paragraph) (block : TextBlock)
  : list Paragraph * Paragraph :=
  let '(paragraphs, current_paragraph) := st in
  match y_position current_paragraph with
  | None =>
      (paragraphs,
       append_part
         {| text_parts := text_parts current_paragraph;
            y_position := Some (y block);
            font_info := font_info current_paragraph |} block)
  | Some anchor =>
      if Qle_bool (Qabs (y block - anchor)) y_threshold then
        (paragraphs, append_part current_paragraph block)
      else
        ((if has_parts current_paragraph
          then paragraphs ++ [current_paragraph] else paragraphs),
         {| text_parts := [block]; y_position := Some (y block);
            font_info := [] |})
  end.

Definition _group_text_into_paragraphs (text_blocks : list TextBlock)
  : list Paragraph :=
  match text_blocks with
  | [] => []
  | _ :: _ =>
      let '(paragraphs, current_paragraph) :=
        fold_left group_step text_blocks ([], empty_paragraph) in
      if has_parts current_paragraph
      then paragraphs ++ [current_paragraph] else paragraphs
  end.

(** The text blocks of a page as [_extract_text_with_layout] returns them,
    from the blocks the visitor collected. *)
Definition _extract_text_with_layout (visited : list TextBlock)
  : list TextBlock :=
  sort_blocks visited.

(** *** The grouping, as the design document words it *)

Definition cluster (anchor : Q) (members : list TextBlock) : Paragraph :=
  {| text_parts := members; y_position := Some anchor; font_info := [] |}.

(** Stream through the fragments with a current cluster and its anchor. *)
Fixpoint stream (anchor : Q) (members : list TextBlock)
    (fragments : list TextBlock) : list Paragraph :=
  match fragments with
  | [] => [cluster anchor members]
  | f :: rest =>
      if Qle_bool (Qabs (y f - anchor)) 5
      then stream anchor (members ++ [f]) rest
      else cluster anchor members :: stream (y f) [f] rest
  end.

Definition reference_grouping (fragments : list TextBlock) : list Paragraph :=
  match fragments with
  | [] => []
  | f :: rest => stream (y f) [f] rest
  end.

(** A paragraph anchored at the [y] of its first part, with every part
    within the threshold of the anchor. *)
Definition anchored (p : Paragraph) : Prop :=
  match text_parts p, y_position p with
  | first :: _, Some anchor =>
      anchor = y first /\
      Forall (fun f => Qle_bool (Qabs (y f - anchor)) 5 = true) (text_parts p)
  | _, _ => False
  end.

(** The order of the sort on the first component of the key: [b] is not
    below [c] on the page. *)
Definition above (b c : TextBlock) : Prop := - y b <= - y c.

(** The same order on anchors. *)
Definition anchor_le (a b : Q) : Prop := - a <= - b.

(** The anchors of a list of paragraphs. *)
Definition anchors (ps : list Paragraph) : list Q :=
  flat_map (fun p => match y_position p with Some a => [a] | None => [] end) ps.

(** Each paragraph after the first starts with a block that is beyond the
    threshold of the anchor of the paragraph before it. *)
Fixpoint cut_at_gaps (ps : list Paragraph) : Prop :=
  match ps with
  | [] => True
  | p :: rest =>
      match rest with
      | [] => True
      | q :: _ =>
          match y_position p, text_parts q with
          | Some anchor, f :: _ => Qle_bool (Qabs (y f - anchor)) 5 = false
          | _, _ => False
          end
      end /\ cut_at_gaps rest
  end.

(** The order of the keys of the sort: [b] does not come after [c]. *)
Definition key_le (b c : TextBlock) : Prop :=
  key_lt (sort_key c) (sort_key b) = false.

End Layout.

(** ** Exceptions *)

(** The exceptions the code can meet; all are caught by
    [except Exception]. *)
Inductive exn : Type :=
| ZeroDivisionError
| AttributeError
| ValueError
| OSError.

(** A computation that returns or raises. *)
Definition M (A : Type) : Type := (exn + A)%type.

Definition ret {A : Type} (a : A) : M A := inr a.
Definition raise {A : Type} (e : exn) : M A := inl e.

Definition bind {A B : Type} (c : M A) (k : A -> M B) : M B :=
  match c with
  | inl e => inl e
  | inr a => k a
  end.

Notation "x <- c ;; k" := (bind c (fun x => k))
  (at level 61, c at next level, right associativity).

(** [a / b] on numbers. *)
Definition div (a b : Q) : M Q :=
  if Qeq_bool b 0 then raise ZeroDivisionError else ret (a / b)%Q.

(** ** Images *)

Module Images.
Import Text.
Local Open Scope Q_scope.

(** An entry of [page.images] whose data can be read (the source skips
    the others): its name if it has one, its bytes, and what [Image.open]
    finds (size and format) when it can decode them. *)
Record RawImage : Type := {
  raw_name : option str;
  raw_data : list N;
  decoded : option (Z * Z * str)
}.

(** An image record of [_extract_images_from_page]. *)
Record ImageData : Type := {
  name : str;
  data : list N;
  width : Z;
  height : Z;
  format : str;
  page_number : nat;
  index : nat
}.

Definition decimal (n : nat) : str :=
  of_string (DecimalString.NilZero.string_of_uint (Nat.to_uint n)).

(** The body of the loop of [_extract_images_from_page]. *)
Definition image_info (page_idx img_idx : nat) (o : RawImage) : ImageData :=
  let image_data := raw_data o in
  let image_name :=
    match raw_name o with
    | Some (c :: n) => c :: n
    | _ => of_string "image_" ++ decimal page_idx
           ++ of_string "_" ++ decimal img_idx
    end in
  let '(width, height, format_type) :=
    match decoded o with
    | Some d => d
    | None => (100%Z, 100%Z, of_string "Unknown")
    end in
  {| name := image_name; data := image_data; width := width;
     height := height; format := format_type;
     page_number := page_idx; index := img_idx |}.

Fixpoint enumerate_from {A : Type} (i : nat) (l : list A) : list (nat * A) :=
  match l with
  | [] => []
  | a :: l' => (i, a) :: enumerate_from (S i) l'
  end.

Definition _extract_images_from_page (images : list RawImage) (page_idx : nat)
  : list ImageData :=
  map (fun io => image_info page_idx (fst io) (snd io))
      (enumerate_from 0 images).

(** The first section of the document.  Its six lengths are kept as
    numbers of inches. *)
Record DocSection : Type := {
  page_width : Q;
  page_height : Q;
  left_margin : Q;
  right_margin : Q;
  top_margin : Q;
  bottom_margin : Q
}.

Definition max_width_inches (section : DocSection) : Q :=
  page_width section - left_margin section - right_margin section.

Definition max_height_inches (section : DocSection) : Q :=
  page_height section - top_margin section - bottom_margin section.

(** python-docx: a length of a section is a [Length], an [int] of
    English Metric Units, 914400 to the inch, with the property [inches].
    [Length] has no arithmetic of its own: the difference of two lengths
    is what [int.__sub__] returns, a plain [int], and a plain [int] has
    no attribute [inches]. *)
Inductive Number : Type :=
| Length (inches : Q)
| Int (emu : Q).

Definition emu_of (n : Number) : Q :=
  match n with
  | Length inches => inches * 914400
  | Int emu => emu
  end.

(** [a - b]. *)
Definition minus (a b : Number) : Number := Int (emu_of a - emu_of b).

(** [n.inches]. *)
Definition inches_of (n : Number) : M Q :=
  match n with
  | Length inches => ret inches
  | Int _ => raise AttributeError
  end.

(** The size [_add_image_to_document] of [modern_pdf2docx_converter.py]
    computes: the pair [(final_width, final_height)] for [add_picture].
    [max_width] and [max_height] are differences of lengths, so that
    reading [.inches] from them raises; the arithmetic after that is
    written on exact numbers. *)
Definition image_size (section : DocSection) (image_data : ImageData)
  : M (Q * Q) :=
  let max_width :=
    minus (minus (Length (page_width section)) (Length (left_margin section)))
          (Length (right_margin section)) in
  let max_height :=
    minus (minus (Length (page_height section)) (Length (top_margin section)))
          (Length (bottom_margin section)) in
  let original_width := inject_Z (width image_data) in
  let original_height := inject_Z (height image_data) in
  max_width_inches <- inches_of max_width ;;
  max_height_inches <- inches_of max_height ;;
  original_width_inches <- div original_width 72 ;;
  original_height_inches <- div original_height 72 ;;
  width_scale <- div max_width_inches original_width_inches ;;
  height_scale <- div max_height_inches original_height_inches ;;
  let scale := Qmin (Qmin width_scale height_scale) 1 in
  let final_width := original_width_inches * scale in
  let final_height := original_height_inches * scale in
  ret (final_width, final_height).

(** The computation in [converters/modern_pdf2docx_converter.py], which
    reads [.inches] from each length of the section before it subtracts
    and replaces a native size of zero before it scales. *)
Definition image_size_converters (section : DocSection) (image_data : ImageData)
  : M (Q * Q) :=
  let original_width := inject_Z (width image_data) in
  let original_height := inject_Z (height image_data) in
  original_width_inches <- div original_width 72 ;;
  original_height_inches <- div original_height 72 ;;
  let '(original_width_inches, original_height_inches) :=
    if Qle_bool original_width_inches 0 || Qle_bool original_height_inches 0
    then (6, 8) else (original_width_inches, original_height_inches) in
  width_scale <- div (max_width_inches section) original_width_inches ;;
  height_scale <- div (max_height_inches section) original_height_inches ;;
  let scale := Qmin (Qmin width_scale height_scale) 1 in
  let final_width := original_width_inches * scale in
  let final_height := original_height_inches * scale in
  ret (final_width, final_height).

End Images.

(** ** Document assembly *)

Module Assembly.
Import Text Layout Images Spacing.
Local Open Scope Q_scope.

(** What the code appends to the body of the document: a paragraph with
    its runs; the paragraph made for an image, with the width and the
    height handed to [run.add_picture]; a page break. *)
Inductive item : Type :=
| ParagraphItem (runs : list TextBlock)
| PictureItem (image : ImageData) (final_width final_height : Q)
| PageBreak.

(** What [_extract_page_content] returns for a page. *)
Record PageContent : Type := {
  page_number : nat;
  text_blocks : list TextBlock;
  images : list ImageData;
  page_size : Q * Q
}.

(** What [extract_pdf_content] returns. *)
Record ExtractedContent : Type := {
  pages : list PageContent;
  total_pages : nat;
  page_indices : list Z
}.

(** The converter: the body and the first section of [self.docx_document],
    and the counters. *)
Record Converter : Type := {
  docx_document : list item;
  section : DocSection;
  conversion_stats : Stats
}.

(** *** Equality of dictionaries ([==] compares the values) *)

Fixpoint list_eqb {A : Type} (eqb : A -> A -> bool) (l1 l2 : list A) : bool :=
  match l1, l2 with
  | [], [] => true
  | a :: l1', b :: l2' => eqb a b && list_eqb eqb l1' l2'
  | _, _ => false
  end.

Definition block_eqb (b c : TextBlock) : bool :=
  str_eqb (text b) (text c) && Qeq_bool (x b) (x c) && Qeq_bool (y b) (y c)
  && str_eqb (font_name b) (font_name c)
  && Qeq_bool (font_size b) (font_size c)
  && list_eqb Qeq_bool (matrix b) (matrix c).

Definition image_eqb (i j : ImageData) : bool :=
  str_eqb (name i) (name j) && list_eqb N.eqb (data i) (data j)
  && Z.eqb (width i) (width j) && Z.eqb (height i) (height j)
  && str_eqb (format i) (format j)
  && Nat.eqb (Images.page_number i) (Images.page_number j)
  && Nat.eqb (index i) (index j).

Definition page_eqb (p q : PageContent) : bool :=
  Nat.eqb (page_number p) (page_number q)
  && list_eqb block_eqb (text_blocks p) (text_blocks q)
  && list_eqb image_eqb (images p) (images q)
  && Qeq_bool (fst (page_size p)) (fst (page_size q))
  && Qeq_bool (snd (page_size p)) (snd (page_size q)).

(** *** Paragraphs *)

Definition starts_with_space (t : str) : bool :=
  match t with
  | c :: _ => N.eqb c sp
  | [] => false
  end.

Definition ends_with_space (t : str) : bool := starts_with_space (rev t).

(** The body of the loop of [_combine_text_with_spacing] on
    [(combined_parts, text_parts[i-1], counters)]. *)
Definition combine_step (acc : list str * option TextBlock * Stats)
    (part : TextBlock) : list str * option TextBlock * Stats :=
  let '(combined_parts, prev, st) := acc in
  let '(text, st) := _fix_text_spacing st (Layout.text part) in
  let combined_parts :=
    match prev with
    | Some prev_part =>
        let x_distance :=
          Qabs (x part
                - (x prev_part
                   + inject_Z (Z.of_nat (length (Layout.text prev_part))) * 5)) in
        if Qlt_bool 10 x_distance && negb (starts_with_space text)
           && negb (ends_with_space (last combined_parts []))
        then combined_parts ++ [[sp]]
        else combined_parts
    | None => combined_parts
    end in
  (combined_parts ++ [text], Some part, st).

Definition _combine_text_with_spacing (st : Stats) (text_parts : list TextBlock)
  : str * Stats :=
  match text_parts with
  | [] => ([], st)
  | _ :: _ =>
      let '(combined_parts, _, st) :=
        fold_left combine_step text_parts ([], None, st) in
      _fix_text_spacing st (concat combined_parts)
  end.

Definition with_stats (c : Converter) (st : Stats) : Converter :=
  {| docx_document := docx_document c; section := section c;
     conversion_stats := st |}.

Definition append_item (c : Converter) (i : item) : Converter :=
  {| docx_document := docx_document c ++ [i]; section := section c;
     conversion_stats := conversion_stats c |}.

(** [not combined_text.strip()]: only whitespace. *)
Definition blank (t : str) : bool := forallb space t.

(** The paragraph gets one run for each text part. *)
Definition _add_paragraph_to_document (c : Converter)
    (paragraph_data : Paragraph) : Converter :=
  let '(combined_text, st) :=
    _combine_text_with_spacing (conversion_stats c)
                               (text_parts paragraph_data) in
  if blank combined_text then with_stats c st
  else append_item (with_stats c st)
                   (ParagraphItem (text_parts paragraph_data)).

(** The size is computed before the paragraph of the image is added: an
    exception in the computation is logged and nothing is added. *)
Definition _add_image_to_document (c : Converter) (image_data : ImageData)
  : Converter :=
  match image_size (section c) image_data with
  | inr (final_width, final_height) =>
      append_item c (PictureItem image_data final_width final_height)
  | inl _ => c
  end.

Definition _process_page_content (c : Converter) (page_content : PageContent)
  : Converter :=
  let paragraphs := _group_text_into_paragraphs (text_blocks page_content) in
  let c := fold_left _add_paragraph_to_document paragraphs c in
  fold_left _add_image_to_document (images page_content) c.

(** *** Pages *)

(** [_set_default_formatting]: the size of the first page, in inches, and
    margins of one inch. *)
Definition _set_default_formatting (sec : DocSection)
    (extracted_content : ExtractedContent) : DocSection :=
  match pages extracted_content with
  | first :: _ =>
      let pdf_width := fst (page_size first) in
      let pdf_height := snd (page_size first) in
      {| page_width := pdf_width / 72; page_height := pdf_height / 72;
         left_margin := 1; right_margin := 1;
         top_margin := 1; bottom_margin := 1 |}
  | [] => sec
  end.

(** [_apply_template_formatting]: the section of the template if one is
    loaded. *)
Definition _apply_template_formatting (sec : DocSection)
    (template : option DocSection) (extracted_content : ExtractedContent)
  : DocSection :=
  match template with
  | Some template_section => template_section
  | None => _set_default_formatting sec extracted_content
  end.

(** The body of the loop of [create_docx_document]; [final] is
    [extracted_content['pages'][-1]]. *)
Definition page_step (final : PageContent) (c : Converter)
    (page_content : PageContent) : Converter :=
  let c := _process_page_content c page_content in
  if negb (page_eqb page_content final) then append_item c PageBreak else c.

(** [new_section] is the first section of the new document. *)
Definition create_docx_document (new_section : DocSection)
    (template : option DocSection) (st : Stats)
    (extracted_content : ExtractedContent) : Converter :=
  let c :=
    {| docx_document := [];
       section :=
         _apply_template_formatting new_section template extracted_content;
       conversion_stats := st |} in
  match pages extracted_content with
  | [] => c
  | first :: rest =>
      fold_left (page_step (last rest first)) (pages extracted_content) c
  end.

(** *** The page loop of [advanced_pdf2docx_converter.py] *)

(** [bodies] gives, for a page number, what [add_text_to_document] and
    [add_images_to_document] append for that page. *)
Definition advanced_page_step (bodies : Z -> list item) (first : Z)
    (doc : list item) (page_num : Z) : list item :=
  let doc := if (first <? page_num)%Z then doc ++ [PageBreak] else doc in
  doc ++ bodies page_num.

Definition advanced_page_loop (bodies : Z -> list item) (page_list : list Z)
  : list item :=
  match page_list with
  | [] => []
  | first :: _ => fold_left (advanced_page_step bodies first) page_list []
  end.

(** *** What a page adds to the document *)

(** The loop of [_combine_text_with_spacing] without the counters. *)
Definition join_step (acc : list str * option TextBlock) (part : TextBlock)
  : list str * option TextBlock :=
  let '(combined_parts, prev) := acc in
  let text := repair (Layout.text part) in
  let combined_parts :=
    match prev with
    | Some prev_part =>
        let x_distance :=
          Qabs (x part
                - (x prev_part
                   + inject_Z (Z.of_nat (length (Layout.text prev_part))) * 5)) in
        if Qlt_bool 10 x_distance && negb (starts_with_space text)
           && negb (ends_with_space (last combined_parts []))
        then combined_parts ++ [[sp]]
        else combined_parts
    | None => combined_parts
    end in
  (combined_parts ++ [text], Some part).

Definition combined_text (text_parts : list TextBlock) : str :=
  match text_parts with
  | [] => []
  | _ :: _ =>
      repair (concat (fst (fold_left join_step text_parts ([], None))))
  end.

Definition paragraph_items (paragraph_data : Paragraph) : list item :=
  if blank (combined_text (text_parts paragraph_data)) then []
  else [ParagraphItem (text_parts paragraph_data)].

Definition picture_items (sec : DocSection) (image_data : ImageData)
  : list item :=
  match image_size sec image_data with
  | inr (final_width, final_height) =>
      [PictureItem image_data final_width final_height]
  | inl _ => []
  end.

Definition page_items (sec : DocSection) (page_content : PageContent)
  : list item :=
  flat_map paragraph_items
           (_group_text_into_paragraphs (text_blocks page_content))
  ++ flat_map (picture_items sec) (images page_content).

(** The page break [page_step] adds after a page. *)
Definition break_after (final page_content : PageContent) : list item :=
  if negb (page_eqb page_content final) then [PageBreak] else [].

(** *** The page breaks, as the design document words them *)

Definition is_break (i : item) : bool :=
  match i with
  | PageBreak => true
  | _ => false
  end.

(** One page break between consecutive pages, none before the first page
    and none after the last. *)
Fixpoint breaks_between (bodies : list (list item)) : list item :=
  match bodies with
  | [] => []
  | body :: rest =>
      match rest with
      | [] => body
      | _ :: _ => body ++ PageBreak :: breaks_between rest
      end
  end.

(** The runs of a paragraph of the document. *)
Definition item_runs (i : item) : list TextBlock :=
  match i with
  | ParagraphItem runs => runs
  | _ => []
  end.

Definition is_picture (i : item) : bool :=
  match i with
  | PictureItem _ _ _ => true
  | _ => false
  end.

End Assembly.

(** ** The conversion entry points *)

Module Convert.
Import Text Layout Images Assembly.
Local Open Scope Q_scope.

(** A page of the PDF as the reader shows it: the text blocks the visitor
    collects, the images and the media box. *)
Record PdfPage : Type := {
  visited : list TextBlock;
  page_images : list RawImage;
  mediabox : Q * Q
}.

(** The PDF as the reader shows it: whether it is encrypted, for each
    password whether the pages can be read after [decrypt(password)],
    and its pages. *)
Record PdfFile : Type := {
  is_encrypted : bool;
  decrypts : str -> bool;
  pdf_pages : list PdfPage
}.

(** [range(start, stop)]. *)
Definition range (start stop : Z) : list Z :=
  map (fun i => (start + Z.of_nat i)%Z) (seq 0 (Z.to_nat (stop - start))).

(** The pages to process; [if pages:] and [if end_page] test for a list
    that is not empty and for a number that is not zero. *)
Definition select_pages (total_pages start_page : Z) (end_page : option Z)
    (pages : option (list Z)) : list Z :=
  match pages with
  | Some (p :: ps) =>
      filter (fun p => (0 <=? p)%Z && (p <? total_pages)%Z) (p :: ps)
  | _ =>
      let start := Z.max 0 start_page in
      let stop :=
        match end_page with
        | Some e => if (e =? 0)%Z then total_pages else Z.min total_pages e
        | None => total_pages
        end in
      range start stop
  end.

Definition count_page (st : Stats) (blocks images : nat) : Stats :=
  {| pages_processed := S (pages_processed st);
     text_blocks_extracted := text_blocks_extracted st + blocks;
     images_extracted := images_extracted st + images;
     spacing_fixes_applied := spacing_fixes_applied st |}.

Definition _extract_page_content (page : PdfPage) (page_idx : nat)
  : PageContent :=
  {| page_number := page_idx;
     text_blocks := _extract_text_with_layout (visited page);
     images := _extract_images_from_page (page_images page) page_idx;
     page_size := mediabox page |}.

Definition no_page : PdfPage :=
  {| visited := []; page_images := []; mediabox := (0, 0) |}.

(** Whether [len(self.pdf_reader.pages)] can be read.  For an encrypted
    PDF the code raises [ValueError] when [if password:] fails (no
    password or an empty one) and calls [decrypt(password)] otherwise;
    [decrypt] does not raise on a password that does not open the PDF,
    reading the pages does. *)
Definition pages_readable (pdf : PdfFile) (password : option str) : bool :=
  if is_encrypted pdf then
    match password with
    | Some (c :: p) => decrypts pdf (c :: p)
    | _ => false
    end
  else true.

(** [extract_pdf_content]: [None] is the empty dictionary it returns when
    anything raises. *)
Definition extract_pdf_content (reader : M PdfFile) (st : Stats)
    (password : option str) (start_page : Z) (end_page : option Z)
    (pages : option (list Z)) : option ExtractedContent * Stats :=
  match reader with
  | inl _ => (None, st)
  | inr pdf =>
      match pages_readable pdf password with
      | false => (None, st)
      | true =>
          let total_pages := Z.of_nat (length (pdf_pages pdf)) in
          let page_indices :=
            select_pages total_pages start_page end_page pages in
          let contents :=
            map (fun page_idx =>
                   _extract_page_content
                     (nth (Z.to_nat page_idx) (pdf_pages pdf) no_page)
                     (Z.to_nat page_idx))
                page_indices in
          let st :=
            fold_left
              (fun st c =>
                 count_page st (length (text_blocks c)) (length (images c)))
              contents st in
          (Some {| Assembly.pages := contents;
                   total_pages := length page_indices;
                   page_indices := page_indices |}, st)
      end
  end.

(** What is outside the program in a run of the modern converter: what
    the PDF reader gives, the first section of a new document, the section
    of the template when one is loaded, whether [document.save] raises,
    and the size of the file at the output path afterwards ([None]: no
    file). *)
Record World : Type := {
  reader : M PdfFile;
  new_section : DocSection;
  template : option DocSection;
  save : M unit;
  output_size : option N
}.

Inductive Status : Type := success | error.

Inductive Failure : Type :=
| FailedToExtract
| InvalidPassword
| OutputMissing
| ConversionFailed (e : exn).

(** The dictionary a conversion returns; of a success only the path and
    the number of pages are kept. *)
Inductive ConversionResult : Type :=
| Success (output_path : str) (pages_converted : nat)
| Error (f : Failure).

Definition status (r : ConversionResult) : Status :=
  match r with
  | Success _ _ => success
  | Error _ => error
  end.

(** [try: ... except Exception as e: return {'status': 'error', ...}]. *)
Definition try_except (body : M ConversionResult) : ConversionResult :=
  match body with
  | inr r => r
  | inl e => Error (ConversionFailed e)
  end.

(** [ModernPDF2DOCXConverter.convert_pdf_to_docx]. *)
Definition convert_pdf_to_docx (w : World) (output_path : str)
    (password : option str) (start_page : Z) (end_page : option Z)
    (pages : option (list Z)) : ConversionResult :=
  try_except
    (let '(extracted_content, st) :=
       extract_pdf_content (reader w) no_stats password
                           start_page end_page pages in
     match extracted_content with
     | None => ret (Error FailedToExtract)
     | Some extracted_content =>
         let document :=
           create_docx_document (new_section w) (template w) st
                                extracted_content in
         _ <- save w ;;
         ret (Success output_path (total_pages extracted_content))
     end).

(** The document the modern converter saves. *)
Definition converted_document (w : World) (password : option str)
    (start_page : Z) (end_page : option Z) (pages : option (list Z))
  : option (list item) :=
  match extract_pdf_content (reader w) no_stats password
                            start_page end_page pages with
  | (Some extracted_content, st) =>
      Some (docx_document
              (create_docx_document (new_section w) (template w) st
                                    extracted_content))
  | (None, _) => None
  end.

(** What is outside the program in a run of the advanced converter:
    whether [fitz.open] raises and how many pages it finds, what the text
    and the images of each page add to the document, whether the password
    is accepted, whether [doc.save] raises, and the size of the file at
    the output path afterwards. *)
Record AdvancedWorld : Type := {
  fitz_open : M nat;
  bodies : Z -> list item;
  authenticate : bool;
  doc_save : M unit;
  file_size : option N
}.

(** [AdvancedPDF2DOCXConverter.convert_pdf_to_docx]. *)
Definition advanced_convert_pdf_to_docx (w : AdvancedWorld) (output_path : str)
    (password : option str) (start_page : Z) (end_page : option Z)
    (pages : option (list Z)) : ConversionResult :=
  try_except
    (n <- fitz_open w ;;
     let rejected :=
       match password with
       | Some (_ :: _) => negb (authenticate w)
       | _ => false
       end in
     if rejected then ret (Error InvalidPassword)
     else
       let total_pages := Z.of_nat n in
       let page_list := select_pages total_pages start_page end_page pages in
       let doc := advanced_page_loop (bodies w) page_list in
       _ <- doc_save w ;;
       match file_size w with
       | Some size =>
           if (0 <? size)%N then ret (Success output_path (length page_list))
           else ret (Error OutputMissing)
       | None => ret (Error OutputMissing)
       end).

End Convert.

(** ** Inputs of the scenarios *)

Module Scenarios.
Import Text Layout Images Assembly Convert.
Local Open Scope Q_scope.

(** A page of 8 by 11 inches with margins of one inch: a printable area
    of 6 by 9 inches. *)
Definition six_by_nine : DocSection :=
  {| page_width := 8; page_height := 11; left_margin := 1;
     right_margin := 1; top_margin := 1; bottom_margin := 1 |}.

Definition picture (w h : Z) : ImageData :=
  {| name := of_string "image_0_0"; data := []; width := w; height := h;
     format := of_string "PNG"; Images.page_number := 0; index := 0 |}.

(** A new document with that section. *)
Definition new_document : Converter :=
  {| docx_document := []; section := six_by_nine;
     conversion_stats := no_stats |}.

(** Three fragments, each within the threshold of the one before it, the
    third beyond the threshold of the first. *)
Definition fragment (t : String.string) (px py : Q) : TextBlock :=
  {| text := of_string t; x := px; y := py;
     font_name := of_string "Helvetica"; font_size := 12;
     matrix := [1; 0; 0; 1; px; py] |}.
Arguments fragment t%_string px%_Q py%_Q.

Definition drifting : list TextBlock :=
  [fragment "a" 72 100; fragment "b" 90 96; fragment "c" 108 92].

(** A PDF of one page with one line of text. *)
Definition hello : TextBlock := fragment "Hello" 72 720.

Definition hello_pdf : PdfFile :=
  {| is_encrypted := false;
     decrypts := fun _ => false;
     pdf_pages :=
       [{| visited := [hello]; page_images := []; mediabox := (612, 792) |}] |}.

(** A run with the output path [/dev/stdout] and a pipe behind it: the
    document is written into the pipe, the save raises nothing, and the
    file at the output path has the size 0 afterwards. *)
Definition empty_output : World :=
  {| reader := inr hello_pdf;
     new_section := six_by_nine;
     template := None;
     save := ret tt;
     output_size := Some 0%N |}.

(** The same run of the advanced converter on a PDF of two pages. *)
Definition page_body (page_num : Z) : list item :=
  [ParagraphItem [fragment "page" 72 (inject_Z page_num)]].

Definition advanced_empty_output : AdvancedWorld :=
  {| fitz_open := ret 2%nat;
     bodies := page_body;
     authenticate := true;
     doc_save := ret tt;
     file_size := Some 0%N |}.

(** A PDF of two pages: a line of text on each, a picture of 720 by 960
    pixels on the second. *)
Definition two_page_pdf : PdfFile :=
  {| is_encrypted := false;
     decrypts := fun _ => false;
     pdf_pages :=
       [{| visited := [fragment "World" 120 720; hello];
           page_images := []; mediabox := (576, 792) |};
        {| visited := [fragment "Second" 72 700];
           page_images :=
             [{| raw_name := None; raw_data := [];
                 decoded := Some (720%Z, 960%Z, of_string "PNG") |}];
           mediabox := (576, 792) |}] |}.

(** What is extracted from that PDF. *)
Definition two_page_content : ExtractedContent :=
  match extract_pdf_content (inr two_page_pdf) no_stats None 0 None None with
  | (Some content, _) => content
  | (None, _) => {| pages := []; total_pages := 0; page_indices := [] |}
  end.

(** A run on that PDF, saved to a file of 2048 bytes. *)
Definition two_page_run : World :=
  {| reader := inr two_page_pdf;
     new_section := six_by_nine;
     template := None;
     save := ret tt;
     output_size := Some 2048%N |}.

Definition advanced_saved : AdvancedWorld :=
  {| fitz_open := ret 2%nat;
     bodies := page_body;
     authenticate := true;
     doc_save := ret tt;
     file_size := Some 2048%N |}.

(** The same PDF encrypted, opened by the password "secret" only, and a
    run on it. *)
Definition locked_pdf : PdfFile :=
  {| is_encrypted := true;
     decrypts := fun password => str_eqb password (of_string "secret");
     pdf_pages := pdf_pages two_page_pdf |}.

Definition locked_run : World :=
  {| reader := inr locked_pdf;
     new_section := six_by_nine;
     template := None;
     save := ret tt;
     output_size := Some 2048%N |}.

(** An image of a page that Pillow cannot open. *)
Definition undecoded : RawImage :=
  {| raw_name := None; raw_data := [37; 80; 68; 70]%N; decoded := None |}.

End Scenarios.

(** ** Fonts ([text_visitor], [_clean_font_name]) *)

Module Fonts.
Import Text Re Layout Assembly.

Definition newline : char := 10%N.
Definition plus_sign : char := 43%N.
Definition comma : char := 44%N.
Definition hyphen : char := 45%N.

(** [^[A-Z]+\+], the prefix of a font subset. *)
Definition subset_prefix : regex := Cat (Plus (Cls upper)) (Chr plus_sign).

(** [re.sub] of a pattern that starts with [^]: the pattern can match at
    the start of the text only. *)
Definition re_sub_at_start (r : regex) (repl : template) (s : str) : str :=
  match re_match r s with
  | Some (_, g, rest) => expand repl g ++ rest
  | None => s
  end.

(** [re.sub(r'^[A-Z]+\+', '', font_name)]. *)
Definition strip_subset_prefix (font_name : str) : str :=
  re_sub_at_start subset_prefix [] font_name.

(** What [.*$] leaves of the text after a separator: nothing when the
    text has no newline, the newline when it is the last character; with
    a newline elsewhere there is no match. *)
Fixpoint to_line_end (r : str) : option str :=
  match r with
  | [] => Some []
  | c :: t =>
      if N.eqb c newline then
        match t with
        | [] => Some [newline]
        | _ :: _ => None
        end
      else to_line_end t
  end.

Definition separator (c : char) : bool := N.eqb c comma || N.eqb c hyphen.

(** [re.sub(r'[,\-].*$', '', font_name)]. *)
Fixpoint strip_variant (s : str) : str :=
  match s with
  | [] => []
  | c :: t =>
      if separator c then
        match to_line_end t with
        | Some kept => kept
        | None => c :: strip_variant t
        end
      else c :: strip_variant t
  end.

(** [w in s] on strings. *)
Fixpoint contains (w s : str) : bool :=
  match Spacing.strip_prefix w s with
  | Some _ => true
  | None =>
      match s with
      | [] => false
      | _ :: t => contains w t
      end
  end.

Definition unknown : str := of_string "Unknown".
Definition calibri : str := of_string "Calibri".

(** [font_mapping], in the order of its items. *)
Definition font_mapping : list (str * str) :=
  [ (of_string "Times", of_string "Times New Roman");
    (of_string "Helvetica", of_string "Arial");
    (of_string "Courier", of_string "Courier New");
    (of_string "Symbol", of_string "Symbol");
    (of_string "ZapfDingbats", of_string "Wingdings") ].

Section Lowering.

(** [str.lower]. *)
Variable lower_case : str -> str.

Definition _clean_font_name (font_name : str) : str :=
  match font_name with
  | [] => calibri
  | _ :: _ =>
      if str_eqb font_name unknown then calibri
      else
        let font_name := strip_subset_prefix font_name in
        let font_name := strip_variant font_name in
        match
          find (fun m => contains (lower_case (fst m)) (lower_case font_name))
               font_mapping
        with
        | Some m => snd m
        | None =>
            match font_name with
            | [] => calibri
            | _ :: _ => font_name
            end
        end
  end.

End Lowering.

(** A call of [text_visitor] by the reader: the text, the text matrix,
    the [/BaseFont] of the font dictionary if there is one, and the font
    size. *)
Record TextEvent : Type := {
  ev_text : str;
  ev_tm : Q * Q * Q * Q * Q * Q;
  ev_base_font : option str;
  ev_font_size : Q
}.

(** [text_visitor]: the block it appends, if any. *)
Definition text_visitor (e : TextEvent) : option TextBlock :=
  if blank (ev_text e) then None
  else
    let '(a, b, c, d, tx, ty) := ev_tm e in
    let font_name :=
      match ev_base_font e with
      | Some n => n
      | None => unknown
      end in
    Some {| text := ev_text e; x := tx; y := ty;
            font_name := strip_subset_prefix font_name;
            font_size :=
              if Qeq_bool (ev_font_size e) 0 then 12%Q else ev_font_size e;
            matrix := [a; b; c; d; tx; ty] |}.

(** What the reader does with the visitor: it calls it for each piece of
    text, or it raises after some calls and the text of the page is
    extracted without a visitor. *)
Inductive PageText : Type :=
| Visited (events : list TextEvent)
| VisitorFailed (events : list TextEvent) (simple_text : str).

Definition collect (events : list TextEvent) : list TextBlock :=
  flat_map (fun e => match text_visitor e with Some b => [b] | None => [] end)
           events.

Definition simple_block (simple_text : str) : TextBlock :=
  {| text := simple_text; x := 0%Q; y := 0%Q; font_name := unknown;
     font_size := 12%Q; matrix := [1; 0; 0; 1; 0; 0]%Q |}.

(** [_extract_text_with_layout] from what the reader does. *)
Definition extract_text_with_layout (t : PageText) : list TextBlock :=
  _extract_text_with_layout
    match t with
    | Visited events => collect events
    | VisitorFailed events simple_text =>
        collect events
        ++ (if blank simple_text then [] else [simple_block simple_text])
    end.

(** All the ways a repeated class matches at the start of a text: the
    longest run first, one character last. *)
Fixpoint class_runs (p : char -> bool) (s : str) : list result :=
  match s with
  | a :: t =>
      if p a then map (after [a] []) (class_runs p t) ++ [([a], [], t)]
      else []
  | [] => []
  end.

End Fonts.

(** ** The text of the advanced converter ([add_text_to_document]) *)

Module AdvancedText.
Import Text Assembly Fonts.

(** A text block of [extract_text_blocks]: a span of the page with its
    box [(x0, y0, x1, y1)], font, size, flags and colour. *)
Record Span : Type := {
  span_text : str;
  bbox : Q * Q * Q * Q;
  font : str;
  size : Q;
  flags : Z;
  color : Z
}.

Definition x0 (b : Span) : Q := let '(a, _, _, _) := bbox b in a.
Definition y0 (b : Span) : Q := let '(_, a, _, _) := bbox b in a.

(** [page.get_text("dict")["blocks"]]: a block has lines of spans or, as
    an image block, no ["lines"]. *)
Definition PageDict : Type := list (option (list (list Span))).

Definition extract_text_blocks (text_dict : PageDict) : list Span :=
  flat_map
    (fun block =>
       match block with
       | Some lines =>
           flat_map (filter (fun span => negb (blank (span_text span)))) lines
       | None => []
       end)
    text_dict.

(** [int(q)]: the integer part, towards zero. *)
Definition py_int (q : Q) : Z := Z.quot (Qnum q) (Zpos (Qden q)).

Definition y_coord (block : Span) : Z := py_int (y0 block).

(** [lines[y_coord].append(block)] on a dictionary kept in the order of
    insertion of its keys. *)
Fixpoint add_to_line (k : Z) (block : Span) (lines : list (Z * list Span))
  : list (Z * list Span) :=
  match lines with
  | [] => [(k, [block])]
  | (k', blocks) :: rest =>
      if Z.eqb k k' then (k', blocks ++ [block]) :: rest
      else (k', blocks) :: add_to_line k block rest
  end.

Definition group_lines (text_blocks : list Span) : list (Z * list Span) :=
  fold_left (fun lines block => add_to_line (y_coord block) block lines)
            text_blocks [].

(** [sorted(lines.items())]: the keys are all different, so the items
    are ordered by their keys. *)
Fixpoint insert_line (l : Z * list Span) (ls : list (Z * list Span))
  : list (Z * list Span) :=
  match ls with
  | [] => [l]
  | m :: ls' =>
      if Z.ltb (fst l) (fst m) then l :: m :: ls'
      else m :: insert_line l ls'
  end.

Definition sorted_lines (lines : list (Z * list Span)) : list (Z * list Span) :=
  fold_left (fun acc l => insert_line l acc) lines [].

(** [line_blocks.sort(key=lambda b: b['bbox'][0])], a stable sort. *)
Fixpoint insert_span (b : Span) (l : list Span) : list Span :=
  match l with
  | [] => [b]
  | c :: l' =>
      if Layout.Qlt_bool (x0 b) (x0 c) then b :: c :: l'
      else c :: insert_span b l'
  end.

Definition sort_line (line_blocks : list Span) : list Span :=
  fold_left (fun acc b => insert_span b acc) line_blocks [].

(** The lines of the page, one paragraph each: the integer part of the
    top of their blocks and the blocks from left to right. *)
Definition text_lines (text_blocks : list Span) : list (Z * list Span) :=
  map (fun l => (fst l, sort_line (snd l)))
      (sorted_lines (group_lines text_blocks)).

(** The red, green and blue of a colour. *)
Definition rgb (color : Z) : Z * Z * Z :=
  (Z.land (Z.shiftr color 16) 255,
   Z.land (Z.shiftr color 8) 255,
   Z.land color 255).

(** A run of a paragraph: text, font name, size in points, bold, italic
    and colour when it is not black. *)
Record Run : Type := {
  run_text : str;
  run_font : str;
  run_size : Q;
  run_bold : bool;
  run_italic : bool;
  run_color : option (Z * Z * Z)
}.

Section Lowering.

Variable lower_case : str -> str.

(** The font of a run: the first registered font whose name is in the
    name of the font of the block, or the font of the block. *)
Definition run_font_name (font_registry : list (str * str)) (font_name : str)
  : str :=
  match
    find (fun f => contains (lower_case (fst f)) (lower_case font_name))
         font_registry
  with
  | Some f => fst f
  | None => font_name
  end.

Definition make_run (font_registry : list (str * str)) (block : Span) : Run :=
  {| run_text := span_text block;
     run_font := run_font_name font_registry (font block);
     run_size := size block;
     run_bold := negb (Z.eqb (Z.land (flags block) (2 ^ 4)) 0);
     run_italic := negb (Z.eqb (Z.land (flags block) (2 ^ 1)) 0);
     run_color :=
       if Z.eqb (color block) 0 then None else Some (rgb (color block)) |}.

(** The paragraphs [add_text_to_document] adds, each a list of runs. *)
Definition add_text_to_document (font_registry : list (str * str))
    (text_blocks : list Span) : list (list Run) :=
  map (fun l => map (make_run font_registry) (snd l)) (text_lines text_blocks).

End Lowering.

(** A line of the page: at least one block, every block with the
    integer part of its top equal to the key of the line, the blocks
    ordered from left to right. *)
Definition line_ok (l : Z * list Span) : Prop :=
  snd l <> [] /\
  Forall (fun b => y_coord b = fst l) (snd l) /\
  StronglySorted (fun b c => (x0 b <= x0 c)%Q) (snd l).

Definition same_line (l : Z * list Span) : Prop :=
  snd l <> [] /\ Forall (fun b => y_coord b = fst l) (snd l).

Definition key_before (l m : Z * list Span) : Prop := (fst l < fst m)%Z.

End AdvancedText.

(** * Properties *)

(** ** Facts about lists *)

Lemma hd_error_app (A : Type) (l1 l2 : list A) :
  hd_error (l1 ++ l2) =
  match hd_error l1 with Some a => Some a | None => hd_error l2 end.
Proof. destruct l1; reflexivity. Qed.

Lemma length_induction (A : Type) (P : list A -> Prop) :
  (forall s, (forall t, length t < length s -> P t) -> P s) ->
  forall s, P s.
Proof.
  intros step s.
  assert (H : forall n t, length t < n -> P t).
  { induction n as [|n IH]; intros t Ht; [lia|].
    apply step. intros u Hu. apply IH. lia. }
  apply (H (S (length s))). lia.
Qed.

(** ** The matcher *)

Module ReFacts.
Import Text Re.

Lemma splits_after s m1 g1 s1 x :
  s = m1 ++ s1 -> m1 <> [] -> splits s1 x -> splits s (after m1 g1 x).
Proof.
  destruct x as [[m2 g2] s2]. simpl. intros -> Hm1 [-> _]. split.
  - now rewrite app_assoc.
  - destruct m1; [contradiction | discriminate].
Qed.

Lemma iter_splits (step : str -> list result) :
  (forall s x, In x (step s) -> splits s x) ->
  forall n s x, In x (iter step n s) -> splits s x.
Proof.
  intros Hstep. induction n as [|n IH]; intros s x; simpl;
    rewrite in_flat_map; intros [[[m1 g1] s1] [H1 H2]].
  - destruct H2 as [<-|[]]. now apply Hstep.
  - apply in_app_or in H2. destruct H2 as [H2|H2].
    + apply in_map_iff in H2. destruct H2 as [y [<- Hy]].
      destruct (Hstep _ _ H1) as [Hs Hm].
      apply splits_after with (s1 := s1); auto.
    + destruct H2 as [<-|[]]. now apply Hstep.
Qed.

Lemma run_splits r : forall s x, In x (run r s) -> splits s x.
Proof.
  induction r as [c|p|r1 IH1 r2 IH2|r1 IH1 r2 IH2|r1 IH1|i r1 IH1];
    intros s x; simpl.
  - destruct s as [|a s']; [intros []|].
    destruct (N.eqb a c); [|intros []].
    intros [<-|[]]. simpl. split; [reflexivity|discriminate].
  - destruct s as [|a s']; [intros []|].
    destruct (p a); [|intros []].
    intros [<-|[]]. simpl. split; [reflexivity|discriminate].
  - rewrite in_flat_map. intros [[[m1 g1] s1] [H1 H2]].
    apply in_map_iff in H2. destruct H2 as [y [<- Hy]].
    destruct (IH1 _ _ H1) as [Hs Hm].
    apply splits_after with (s1 := s1); auto.
  - intros H. apply in_app_or in H. destruct H; auto.
  - apply iter_splits. exact IH1.
  - rewrite in_map_iff. intros [[[m g] s'] [<- Hy]]. exact (IH1 _ _ Hy).
Qed.

Lemma re_match_splits r s m g rest :
  re_match r s = Some (m, g, rest) -> s = m ++ rest /\ m <> [].
Proof.
  unfold re_match. intros H.
  apply (run_splits r s (m, g, rest)).
  destruct (run r s); [discriminate|]. injection H as ->. now left.
Qed.

Lemma sub_scan_skip r t m : forall rest,
  sub_scan r t (length m) (m ++ rest) = sub_scan r t 0 rest.
Proof.
  induction m as [|c m IH]; intros rest; simpl; [destruct rest|]; auto.
Qed.

(** [re.sub] goes on after the matched text. *)
Lemma re_sub_cons r t c s :
  re_sub r t (c :: s) =
  match re_match r (c :: s) with
  | Some (_, g, rest) => expand t g ++ re_sub r t rest
  | None => c :: re_sub r t s
  end.
Proof.
  unfold re_sub. simpl.
  destruct (re_match r (c :: s)) as [[[m g] rest]|] eqn:E; [|reflexivity].
  apply re_match_splits in E. destruct E as [E Hm].
  destruct m as [|c' m]; [contradiction|]. simpl in E. injection E as _ ->.
  simpl. rewrite Nat.sub_0_r. now rewrite sub_scan_skip.
Qed.

Lemma re_sub_nil r t : re_sub r t [] = [].
Proof. reflexivity. Qed.

(** A pattern of two classes, one group each. *)
Lemma re_match_two P Q s :
  re_match (Cat (Grp 1 (Cls P)) (Grp 2 (Cls Q))) s =
  match s with
  | a :: b :: rest =>
      if P a && Q b then Some ([a; b], [(2, [b]); (1, [a])], rest) else None
  | _ => None
  end.
Proof.
  unfold re_match. destruct s as [|a [|b rest]]; simpl.
  - reflexivity.
  - destruct (P a); reflexivity.
  - destruct (P a); simpl; [|reflexivity]. destruct (Q b); reflexivity.
Qed.

Lemma iter_class (p : char -> bool) (step : str -> list result) :
  (forall s : str, step s =
     match s return list result with
     | a :: s' => if p a then [([a], [], s')] else []
     | [] => []
     end) ->
  forall n s, length s <= n ->
  hd_error (iter step n s) =
  match s with
  | c :: t =>
      if p c then Some (c :: take_while p t, [], drop_while p t) else None
  | [] => None
  end.
Proof.
  intros Hstep. induction n as [|n IH]; intros s Hn.
  - destruct s; [|simpl in Hn; lia]. simpl. now rewrite Hstep.
  - destruct s as [|c t]; simpl; rewrite Hstep; [reflexivity|].
    simpl in Hn. destruct (p c) eqn:Hc; [|reflexivity].
    simpl. rewrite app_nil_r, hd_error_app.
    assert (Ht : length t <= n) by lia.
    specialize (IH t Ht).
    destruct (iter step n t) as [|[[m2 g2] s2] l] eqn:E.
    + simpl. destruct t as [|d t']; [reflexivity|].
      simpl in IH. simpl. destruct (p d); [discriminate|reflexivity].
    + simpl in IH. simpl. destruct t as [|d t']; [discriminate|].
      simpl. destruct (p d); [|discriminate].
      injection IH as -> -> ->. reflexivity.
Qed.

Lemma re_match_plus_class p s :
  re_match (Plus (Cls p)) s =
  match s with
  | c :: t =>
      if p c then Some (c :: take_while p t, [], drop_while p t) else None
  | [] => None
  end.
Proof.
  unfold re_match. cbn [run].
  apply iter_class with (step := run (Cls p)); [reflexivity|lia].
Qed.

Lemma drop_while_length p s : length (drop_while p s) <= length s.
Proof.
  induction s as [|c t IH]; simpl; [lia|]. destruct (p c); simpl; lia.
Qed.

End ReFacts.

(** ** Character classes *)

Module TextFacts.
Import Text.

Lemma in_ranges_overlap t1 t2 c :
  in_ranges t1 c = true -> in_ranges t2 c = true -> tables_overlap t1 t2 = true.
Proof.
  unfold in_ranges, tables_overlap. rewrite !existsb_exists.
  intros [[l1 h1] [I1 R1]] [[l2 h2] [I2 R2]].
  exists (l1, h1). split; [assumption|].
  apply existsb_exists. exists (l2, h2). split; [assumption|].
  unfold in_range, overlap in *. simpl in *.
  apply andb_prop in R1. apply andb_prop in R2.
  destruct R1 as [A1 B1]. destruct R2 as [A2 B2].
  apply N.leb_le in A1, B1, A2, B2.
  apply andb_true_intro. split; apply N.leb_le; lia.
Qed.

Lemma disjoint_tables t1 t2 c :
  tables_overlap t1 t2 = false ->
  in_ranges t1 c = true -> in_ranges t2 c = false.
Proof.
  intros H H1. destruct (in_ranges t2 c) eqn:H2; [|reflexivity].
  now rewrite (in_ranges_overlap _ _ _ H1 H2) in H.
Qed.

Lemma range_as_table lo hi c : in_range lo hi c = in_ranges [(lo, hi)] c.
Proof. unfold in_ranges. simpl. now rewrite orb_false_r. Qed.

Lemma punct_as_table c : punct c = in_ranges [(46, 46); (33, 33); (63, 63)]%N c.
Proof.
  unfold punct, in_ranges, in_range. simpl. rewrite orb_false_r.
  rewrite <- !orb_assoc.
  assert (E : forall k, (c =? k)%N = ((k <=? c) && (c <=? k))%N).
  { intros k. destruct (N.eqb_spec c k) as [->|Hne].
    - now rewrite N.leb_refl.
    - destruct (N.leb_spec k c), (N.leb_spec c k); try reflexivity. lia. }
  now rewrite !E.
Qed.

Lemma upper_not_lower c : upper c = true -> lower c = false.
Proof.
  unfold upper, lower. rewrite !range_as_table.
  now apply disjoint_tables.
Qed.

Lemma digit_not_lower c : digit c = true -> lower c = false.
Proof.
  unfold digit, lower. rewrite range_as_table.
  apply disjoint_tables. now vm_compute.
Qed.

Lemma upper_not_punct c : upper c = true -> punct c = false.
Proof.
  unfold upper. rewrite range_as_table, punct_as_table.
  now apply disjoint_tables.
Qed.

Lemma space_not_lower c : space c = true -> lower c = false.
Proof.
  unfold space, lower. rewrite range_as_table. now apply disjoint_tables.
Qed.

Lemma space_not_upper c : space c = true -> upper c = false.
Proof.
  unfold space, upper. rewrite range_as_table. now apply disjoint_tables.
Qed.

Lemma space_not_punct c : space c = true -> punct c = false.
Proof.
  unfold space. rewrite punct_as_table. now apply disjoint_tables.
Qed.

Lemma space_not_digit c : space c = true -> digit c = false.
Proof. unfold space, digit. apply disjoint_tables. now vm_compute. Qed.

Lemma space_sp : space sp = true.
Proof. reflexivity. Qed.

End TextFacts.

(** ** Spacing repair *)

Module SpacingFacts.
Import Text Re Spacing ReFacts TextFacts.

Lemma insert_between_skip P Q b rest :
  P b = false ->
  insert_between P Q (b :: rest) = b :: insert_between P Q rest.
Proof. intros Hb. destruct rest; simpl; now rewrite ?Hb. Qed.

(** Substituting [\1 \2] for two classes with nothing in common puts a
    space at each boundary. *)
Lemma re_sub_two P Q :
  (forall c, Q c = true -> P c = false) ->
  forall s,
    re_sub (Cat (Grp 1 (Cls P)) (Grp 2 (Cls Q))) two_groups s =
    insert_between P Q s.
Proof.
  intros HPQ s. induction s as [s IH] using length_induction.
  destruct s as [|a t]; [reflexivity|].
  rewrite re_sub_cons, re_match_two. destruct t as [|b rest].
  - reflexivity.
  - destruct (P a && Q b) eqn:E.
    + apply andb_prop in E. destruct E as [Ea Eb].
      change (insert_between P Q (a :: b :: rest))
        with (a :: (if P a && Q b then sp :: insert_between P Q (b :: rest)
                    else insert_between P Q (b :: rest))).
      rewrite Ea, Eb. simpl andb. cbv iota.
      rewrite insert_between_skip by auto.
      rewrite IH by (simpl; lia). reflexivity.
    + change (insert_between P Q (a :: b :: rest))
        with (a :: (if P a && Q b then sp :: insert_between P Q (b :: rest)
                    else insert_between P Q (b :: rest))).
      rewrite E. rewrite IH by (simpl; lia). reflexivity.
Qed.

Lemma squeeze_true_drop s :
  squeeze true s = squeeze false (drop_while space s).
Proof.
  induction s as [|c t IH]; [reflexivity|]. simpl.
  destruct (space c) eqn:E; [assumption|]. simpl. now rewrite E.
Qed.

Lemma re_sub_spaces s : re_sub spaces one_space s = squeeze false s.
Proof.
  induction s as [s IH] using length_induction.
  destruct s as [|c t]; [reflexivity|].
  unfold spaces. rewrite re_sub_cons, re_match_plus_class. simpl squeeze.
  destruct (space c).
  - simpl expand. rewrite squeeze_true_drop.
    fold spaces. rewrite IH; [reflexivity|].
    simpl. pose proof (drop_while_length space t). lia.
  - fold spaces. rewrite IH by (simpl; lia). reflexivity.
Qed.

(** *** The glued short word *)

Lemma strip_prefix_app w : forall s rest,
  strip_prefix w s = Some rest -> s = w ++ rest.
Proof.
  induction w as [|c w IH]; intros s rest; simpl.
  - now intros [= ->].
  - destruct s as [|a s']; [discriminate|].
    destruct (N.eqb_spec a c) as [->|]; [|discriminate].
    intros H. now rewrite (IH _ _ H).
Qed.

Lemma run_word : forall w c s,
  run (word c w) s =
  match strip_prefix (c :: w) s with
  | Some rest => [(c :: w, [], rest)]
  | None => []
  end.
Proof.
  induction w as [|d w IH]; intros c s.
  - simpl. destruct s as [|a s']; [reflexivity|].
    destruct (N.eqb_spec a c) as [->|]; reflexivity.
  - cbn [word run]. destruct s as [|a s']; [reflexivity|].
    change (strip_prefix (c :: d :: w) (a :: s'))
      with (if N.eqb a c then strip_prefix (d :: w) s' else None).
    destruct (N.eqb_spec a c) as [->|]; [|reflexivity].
    cbn [flat_map then_]. rewrite IH, app_nil_r.
    destruct (strip_prefix (d :: w) s'); reflexivity.
Qed.

Lemma run_lit w s :
  w <> [] ->
  run (lit w) s =
  match strip_prefix w s with
  | Some rest => [(w, [], rest)]
  | None => []
  end.
Proof. destruct w as [|c w]; [contradiction|]. intros _. apply run_word. Qed.

Lemma lit_upper w s :
  w <> [] ->
  hd_error
    (flat_map (then_ (run (Grp 3 (Cls upper))))
       (map (capture 2) (run (lit w) s))) = word_upper w s.
Proof.
  intros Hw. rewrite run_lit by assumption. unfold word_upper.
  destruct (strip_prefix w s) as [[|b rest]|]; try reflexivity.
  simpl. destruct (upper b); reflexivity.
Qed.

Lemma alts_upper : forall ws w s,
  w <> [] -> Forall (fun v => v <> []) ws ->
  hd_error (run (Cat (Grp 2 (alts w ws)) (Grp 3 (Cls upper))) s) =
  match glued_at (w :: ws) s with
  | Some (v, b, rest) => Some (v ++ [b], [(3, [b]); (2, v)], rest)
  | None => None
  end.
Proof.
  induction ws as [|w' ws IH]; intros w s Hw Hws.
  - cbn [alts run]. rewrite lit_upper by assumption.
    unfold word_upper. simpl.
    destruct (strip_prefix w s) as [[|b rest]|]; try reflexivity.
    destruct (upper b); reflexivity.
  - inversion Hws as [|? ? Hw' Hws']; subst.
    cbn [alts run]. rewrite map_app, flat_map_app, hd_error_app.
    rewrite lit_upper by assumption.
    specialize (IH w' s Hw' Hws'). cbn [run] in IH. rewrite IH.
    unfold word_upper. cbn [glued_at].
    destruct (strip_prefix w s) as [[|b rest]|]; try reflexivity.
    destruct (upper b); reflexivity.
Qed.

Lemma words_not_empty :
  first_word <> [] /\ Forall (fun v => v <> []) other_words.
Proof. split; [discriminate|]. repeat constructor; discriminate. Qed.

Lemma hd_error_map (A B : Type) (f : A -> B) (l : list A) :
  hd_error (map f l) = option_map f (hd_error l).
Proof. destruct l; reflexivity. Qed.

Lemma re_match_glued s :
  re_match glued_word s =
  match s with
  | a :: t =>
      if lower a then
        match glued_at (first_word :: other_words) t with
        | Some (w, b, rest) =>
            Some (a :: w ++ [b], [(3, [b]); (2, w); (1, [a])], rest)
        | None => None
        end
      else None
  | [] => None
  end.
Proof.
  unfold re_match, glued_word. destruct s as [|a t]; [reflexivity|].
  cbn [run]. destruct (lower a); [|reflexivity].
  cbn [map flat_map capture then_]. rewrite app_nil_r, hd_error_map.
  destruct words_not_empty as [H1 H2].
  pose proof (alts_upper other_words first_word t H1 H2) as E.
  cbn [run] in E. rewrite E. unfold str.
  destruct (glued_at _ t) as [[[w b] rest]|]; reflexivity.
Qed.

Lemma glued_at_app : forall ws s w b rest,
  glued_at ws s = Some (w, b, rest) ->
  In w ws /\ s = w ++ b :: rest /\ upper b = true.
Proof.
  induction ws as [|v ws IH]; intros s w b rest; simpl; [discriminate|].
  destruct (strip_prefix v s) as [[|c rest']|] eqn:E.
  - intros H. destruct (IH _ _ _ _ H) as [? ?]. auto.
  - destruct (upper c) eqn:U.
    + intros [= <- <- <-]. apply strip_prefix_app in E. auto.
    + intros H. destruct (IH _ _ _ _ H) as [? ?]. auto.
  - intros H. destruct (IH _ _ _ _ H) as [? ?]. auto.
Qed.

Lemma split_glued_skip m : forall rest,
  split_glued (length m) (m ++ rest) = split_glued 0 rest.
Proof.
  induction m as [|c m IH]; intros rest; simpl; [|apply IH].
  destruct rest; reflexivity.
Qed.

(** Substituting [\1 \2 \3] for the glued word is [split_glued]. *)
Lemma re_sub_glued s : re_sub glued_word three_groups s = split_glued 0 s.
Proof.
  induction s as [s IH] using length_induction.
  destruct s as [|a t]; [reflexivity|].
  rewrite re_sub_cons, re_match_glued. cbn [split_glued].
  destruct (lower a); [|now rewrite IH by (simpl; lia)].
  destruct (glued_at (first_word :: other_words) t) as [[[w b] rest]|] eqn:E;
    [|now rewrite IH by (simpl; lia)].
  apply glued_at_app in E. destruct E as [_ [-> _]].
  rewrite IH by (simpl; rewrite length_app; simpl; lia).
  change (S (length w)) with (length (b :: w)).
  replace (split_glued (length (b :: w)) (w ++ b :: rest))
    with (split_glued 0 rest).
  - simpl. rewrite <- app_assoc. reflexivity.
  - replace (length (b :: w)) with (length (w ++ [b]))
      by (rewrite length_app; simpl; lia).
    replace (w ++ b :: rest) with ((w ++ [b]) ++ rest)
      by (now rewrite <- app_assoc).
    now rewrite split_glued_skip.
Qed.

(** The returned string is the five corrections in their order. *)
Lemma repair_five s : repair s = five_corrections s.
Proof.
  unfold repair, _fix_text_spacing, five_corrections. cbn [fst].
  unfold lower_upper, punct_upper, lower_digit.
  rewrite (re_sub_two lower upper upper_not_lower).
  rewrite (re_sub_two punct upper upper_not_punct).
  rewrite re_sub_glued.
  rewrite (re_sub_two lower digit digit_not_lower).
  now rewrite re_sub_spaces.
Qed.

Lemma fix_text_spacing_fst st s : fst (_fix_text_spacing st s) = repair s.
Proof. reflexivity. Qed.


(** *** Boundaries *)

Lemma insert_between_head P Q b t :
  exists r, insert_between P Q (b :: t) = b :: r.
Proof. eexists. reflexivity. Qed.

Lemma insert_between_cons2 P Q a b t :
  insert_between P Q (a :: b :: t) =
  a :: (if P a && Q b then sp :: insert_between P Q (b :: t)
        else insert_between P Q (b :: t)).
Proof. reflexivity. Qed.

(** After the insertion no boundary of the kind is left. *)
Lemma insert_between_clean P Q :
  P sp = false -> Q sp = false ->
  forall s, no_boundary P Q (insert_between P Q s).
Proof.
  intros HP HQ. induction s as [|a t IH]; [exact I|].
  destruct t as [|b t]; [simpl; auto|].
  rewrite insert_between_cons2.
  destruct (insert_between_head P Q b t) as [r Er]. rewrite Er in *.
  destruct (P a && Q b) eqn:E; cbn [no_boundary].
  - rewrite HP, HQ, andb_false_r. auto.
  - auto.
Qed.

(** The insertion makes no boundary of another kind. *)
Lemma insert_between_keeps P Q P' Q' :
  P' sp = false -> Q' sp = false ->
  forall s, no_boundary P' Q' s -> no_boundary P' Q' (insert_between P Q s).
Proof.
  intros HP HQ. induction s as [|a t IH]; [trivial|].
  intros [Hab Ht]. specialize (IH Ht).
  destruct t as [|b t]; [simpl; auto|].
  rewrite insert_between_cons2.
  destruct (insert_between_head P Q b t) as [r Er]. rewrite Er in *.
  destruct (P a && Q b); cbn [no_boundary].
  - rewrite HP, HQ, andb_false_r. auto.
  - auto.
Qed.

(** Where there is no boundary the insertion changes nothing. *)
Lemma insert_between_fixed P Q :
  forall s, no_boundary P Q s -> insert_between P Q s = s.
Proof.
  induction s as [|a t IH]; [trivial|].
  intros [Hab Ht]. specialize (IH Ht).
  destruct t as [|b t]; [reflexivity|].
  rewrite insert_between_cons2, Hab, IH. reflexivity.
Qed.

Lemma squeeze_keeps_both P Q :
  P sp = false -> Q sp = false ->
  forall s,
    (forall prev, no_boundary P Q (prev :: s) ->
                  no_boundary P Q (prev :: squeeze false s)) /\
    (no_boundary P Q s -> no_boundary P Q (sp :: squeeze true s)).
Proof.
  intros HP HQ. induction s as [|c t [IHf IHt]].
  - simpl. auto.
  - split.
    + intros prev [Hpc Hct]. cbn [squeeze].
      destruct (space c).
      * cbn [no_boundary]. rewrite HQ, andb_false_r. split; [reflexivity|].
        apply IHt. now destruct Hct.
      * cbn [no_boundary]. split; [assumption|]. now apply IHf.
    + intros Hct. cbn [squeeze]. destruct (space c).
      * apply IHt. now destruct Hct.
      * cbn [no_boundary]. rewrite HP. split; [reflexivity|]. now apply IHf.
Qed.

(** Squeezing the whitespace makes no boundary. *)
Lemma squeeze_keeps P Q :
  P sp = false -> Q sp = false ->
  forall s, no_boundary P Q s -> no_boundary P Q (squeeze false s).
Proof.
  intros HP HQ s Hs. destruct s as [|c t]; [exact I|].
  destruct (squeeze_keeps_both P Q HP HQ t) as [Hf Ht].
  cbn [squeeze]. destruct (space c).
  - apply Ht. now destruct Hs.
  - now apply Hf.
Qed.

Lemma squeeze_squeeze_both s :
  squeeze false (squeeze false s) = squeeze false s /\
  squeeze true (squeeze true s) = squeeze true s.
Proof.
  induction s as [|c t [IHf IHt]]; [auto|].
  cbn [squeeze]. destruct (space c) eqn:E.
  - split; [|assumption].
    cbn [squeeze]. rewrite space_sp. now rewrite IHt.
  - cbn [squeeze]. rewrite E. now rewrite IHf.
Qed.

Lemma squeeze_squeeze s : squeeze false (squeeze false s) = squeeze false s.
Proof. apply squeeze_squeeze_both. Qed.

Lemma no_boundary_suffix P Q pre : forall suf,
  no_boundary P Q (pre ++ suf) -> no_boundary P Q suf.
Proof.
  induction pre as [|a pre IH]; intros suf; [trivial|].
  simpl. intros [_ H]. now apply IH.
Qed.

Lemma ends_lower_boundary b rest : forall w,
  ends_lower w = true -> upper b = true ->
  no_boundary lower upper (w ++ b :: rest) -> False.
Proof.
  induction w as [|c w IH]; [discriminate|].
  destruct w as [|d w].
  - simpl. intros -> -> [H _]. discriminate.
  - intros Hw Hb [_ H]. now apply IH.
Qed.

Lemma words_end_lower :
  forall w, In w (first_word :: other_words) -> ends_lower w = true.
Proof. apply forallb_forall. reflexivity. Qed.

(** Where no lowercase letter is followed by an uppercase letter, no glued
    word is found. *)
Lemma glued_at_none s :
  no_boundary lower upper s -> glued_at (first_word :: other_words) s = None.
Proof.
  intros Hs.
  destruct (glued_at (first_word :: other_words) s) as [[[w b] rest]|] eqn:E;
    [|reflexivity].
  apply glued_at_app in E. destruct E as [Hw [-> Hb]].
  exfalso. apply (ends_lower_boundary b rest w); auto.
  now apply words_end_lower.
Qed.

Lemma re_match_glued_none s :
  no_boundary lower upper s -> re_match glued_word s = None.
Proof.
  intros Hs. rewrite re_match_glued. destruct s as [|a t]; [reflexivity|].
  rewrite glued_at_none; [now destruct (lower a)|].
  now destruct Hs.
Qed.

Lemma split_glued_fixed : forall s,
  no_boundary lower upper s -> split_glued 0 s = s.
Proof.
  induction s as [|a t IH]; [reflexivity|]. intros [Hab Ht].
  cbn [split_glued]. rewrite (glued_at_none _ Ht), (IH Ht).
  now destruct (lower a).
Qed.

(** The text after the first two substitutions. *)
Lemma two_steps_clean s :
  no_boundary lower upper
    (insert_between punct upper (insert_between lower upper s)).
Proof.
  apply insert_between_keeps; try reflexivity.
  now apply insert_between_clean.
Qed.

Lemma five_clean s :
  let t := five_corrections s in
  no_boundary lower upper t /\ no_boundary punct upper t /\
  no_boundary lower digit t /\ squeeze false t = t.
Proof.
  unfold five_corrections.
  rewrite (split_glued_fixed _ (two_steps_clean s)).
  cbv zeta. repeat split.
  - apply squeeze_keeps; try reflexivity.
    apply insert_between_keeps; try reflexivity. apply two_steps_clean.
  - apply squeeze_keeps; try reflexivity.
    apply insert_between_keeps; try reflexivity.
    now apply insert_between_clean.
  - apply squeeze_keeps; try reflexivity.
    now apply insert_between_clean.
  - apply squeeze_squeeze.
Qed.

Lemma five_fixed t :
  no_boundary lower upper t -> no_boundary punct upper t ->
  no_boundary lower digit t -> squeeze false t = t ->
  five_corrections t = t.
Proof.
  intros H1 H2 H3 H4. unfold five_corrections.
  rewrite (insert_between_fixed _ _ _ H1), (insert_between_fixed _ _ _ H2).
  rewrite (split_glued_fixed _ H1), (insert_between_fixed _ _ _ H3).
  exact H4.
Qed.

Lemma repair_repair s : repair (repair s) = repair s.
Proof.
  rewrite !repair_five.
  destruct (five_clean s) as [H1 [H2 [H3 H4]]]. now apply five_fixed.
Qed.

Lemma without_glued_fst st s :
  fst (_fix_text_spacing_without_glued st s) = repair s.
Proof.
  rewrite repair_five.
  unfold _fix_text_spacing_without_glued, five_corrections. cbn [fst].
  unfold lower_upper, punct_upper, lower_digit.
  rewrite (re_sub_two lower upper upper_not_lower).
  rewrite (re_sub_two punct upper upper_not_punct).
  rewrite (re_sub_two lower digit digit_not_lower).
  rewrite re_sub_spaces.
  now rewrite (split_glued_fixed _ (two_steps_clean s)).
Qed.

Lemma glued_step_identity s :
  re_sub glued_word three_groups
    (re_sub punct_upper two_groups (re_sub lower_upper two_groups s)) =
  re_sub punct_upper two_groups (re_sub lower_upper two_groups s).
Proof.
  rewrite re_sub_glued. unfold lower_upper, punct_upper.
  rewrite (re_sub_two lower upper upper_not_lower).
  rewrite (re_sub_two punct upper upper_not_punct).
  apply split_glued_fixed, two_steps_clean.
Qed.

Lemma fix_text_spacing_idempotent_text (st st' : Stats) (s : str) :
  fst (_fix_text_spacing st (fst (_fix_text_spacing st' s))) =
  fst (_fix_text_spacing st' s).
Proof. rewrite !fix_text_spacing_fst. apply repair_repair. Qed.

(** C2. Repairing the spacing of a repaired string changes nothing: for
    every string [s] and whatever the counters are, the string
    [_fix_text_spacing] returns on its own result is that result. *)
Theorem fix_text_spacing_idempotent (st st' : Stats) (s : str) :
  fst (_fix_text_spacing st' (fst (_fix_text_spacing st s))) =
  fst (_fix_text_spacing st s).
Proof. rewrite !fix_text_spacing_fst. apply repair_repair. Qed.

(** C3. The string [_fix_text_spacing] returns is the five corrections in
    their order: a space at each lowercase-uppercase boundary, then at each
    boundary between [.], [!] or [?] and an uppercase letter, then around a
    glued short word of the list, then at each boundary between a
    lowercase letter and a digit, then each run of whitespace squeezed to
    one space; and ["wordsOf theBook"] becomes ["words Of the Book"]. *)
Theorem fix_text_spacing_five_corrections :
  (forall (st : Stats) (s : str),
     fst (_fix_text_spacing st s) =
     squeeze false
       (insert_between lower digit
          (split_glued 0
             (insert_between punct upper
                (insert_between lower upper s))))) /\
  (forall st : Stats,
     fst (_fix_text_spacing st (of_string "wordsOf theBook")) =
     of_string "words Of the Book").
Proof.
  split.
  - intros st s. rewrite fix_text_spacing_fst. apply repair_five.
  - intros st. reflexivity.
Qed.

(** C10. The third substitution, for the glued short word, finds no match
    at any position of the text the first two substitutions produce, so it
    leaves that text as it is, and [_fix_text_spacing] without it returns
    the same string and the same counters. *)
Theorem glued_word_step_is_dead (s : str) :
  let t := re_sub punct_upper two_groups (re_sub lower_upper two_groups s) in
  (forall pre suf, t = pre ++ suf -> re_match glued_word suf = None) /\
  re_sub glued_word three_groups t = t /\
  (forall st : Stats,
     _fix_text_spacing_without_glued st s = _fix_text_spacing st s).
Proof.
  cbv zeta. repeat split.
  - intros pre suf E. apply re_match_glued_none.
    apply no_boundary_suffix with (pre := pre). rewrite <- E.
    unfold lower_upper, punct_upper.
    rewrite (re_sub_two lower upper upper_not_lower).
    rewrite (re_sub_two punct upper upper_not_punct).
    apply two_steps_clean.
  - apply glued_step_identity.
  - intros st. unfold _fix_text_spacing_without_glued, _fix_text_spacing.
    now rewrite glued_step_identity.
Qed.

(** In ["xofA"] the first substitution leaves ["xof A"], where the glued
    word is not found after the [x]. *)
Lemma glued_word_step_is_dead_witness :
  re_match glued_word (of_string "of A") = None.
Proof.
  apply (proj1 (glued_word_step_is_dead (of_string "xofA"))
               (of_string "x") (of_string "of A")).
  reflexivity.
Defined.

End SpacingFacts.

(** ** Layout reconstruction *)

Module LayoutFacts.
Import Text Layout.
Local Open Scope Q_scope.

(** *** The loop and the streaming reference *)

Lemma fold_stream : forall rest ps a m,
  m <> [] ->
  (let '(ps', cur) := fold_left group_step rest (ps, cluster a m) in
   if has_parts cur then ps' ++ [cur] else ps') =
  ps ++ stream a m rest.
Proof.
  induction rest as [|f rest IH]; intros ps a m Hm.
  - simpl. destruct m; [contradiction|reflexivity].
  - cbn [fold_left stream]. unfold group_step at 2. cbn [cluster y_position].
    change y_threshold with 5.
    destruct (Qle_bool (Qabs (y f - a)) 5).
    + change (append_part (cluster a m) f) with (cluster a (m ++ [f])).
      apply IH. now destruct m.
    + replace (has_parts (cluster a m)) with true by (now destruct m).
      change {| text_parts := [f]; y_position := Some (y f); font_info := [] |}
        with (cluster (y f) [f]).
      rewrite IH by discriminate. now rewrite <- app_assoc.
Qed.

Lemma group_is_reference (text_blocks : list TextBlock) :
  _group_text_into_paragraphs text_blocks = reference_grouping text_blocks.
Proof.
  destruct text_blocks as [|b rest]; [reflexivity|].
  unfold _group_text_into_paragraphs, reference_grouping.
  cbn [fold_left]. unfold group_step at 2. cbn [empty_paragraph y_position].
  change (append_part _ b) with (cluster (y b) [b]).
  now rewrite (fold_stream rest [] (y b) [b]) by discriminate.
Qed.

(** *** The paragraphs partition the blocks *)

Lemma stream_concat : forall rest a m,
  concat (map text_parts (stream a m rest)) = m ++ rest.
Proof.
  induction rest as [|f rest IH]; intros a m; cbn [stream].
  - simpl. now rewrite app_nil_r.
  - destruct (Qle_bool (Qabs (y f - a)) 5).
    + rewrite IH. now rewrite <- app_assoc.
    + cbn [map concat cluster text_parts]. now rewrite IH.
Qed.

Lemma within_self q : Qle_bool (Qabs (q - q)) 5 = true.
Proof.
  apply Qle_bool_iff. setoid_replace (q - q) with 0 by ring. discriminate.
Qed.

Lemma stream_anchored : forall rest first m,
  Forall (fun f => Qle_bool (Qabs (y f - y first)) 5 = true) (first :: m) ->
  Forall anchored (stream (y first) (first :: m) rest).
Proof.
  induction rest as [|f rest IH]; intros first m Hm; cbn [stream].
  - constructor; [|constructor]. unfold anchored. simpl. auto.
  - destruct (Qle_bool (Qabs (y f - y first)) 5) eqn:E.
    + change ((first :: m) ++ [f]) with (first :: (m ++ [f])). apply IH.
      change (first :: m ++ [f]) with ((first :: m) ++ [f]).
      apply Forall_app. split; [assumption|]. now constructor.
    + constructor.
      * unfold anchored. simpl. auto.
      * apply (IH f []). constructor; [apply within_self|constructor].
Qed.

(** The paragraphs are the blocks in their order, cut into clusters that
    are each anchored at their first block. *)
Lemma grouping_partitions (text_blocks : list TextBlock) :
  concat (map text_parts (_group_text_into_paragraphs text_blocks)) =
  text_blocks /\
  Forall anchored (_group_text_into_paragraphs text_blocks).
Proof.
  rewrite group_is_reference.
  destruct text_blocks as [|b rest]; cbn [reference_grouping].
  - split; [reflexivity|constructor].
  - split; [apply stream_concat|].
    apply (stream_anchored rest b []).
    constructor; [apply within_self|constructor].
Qed.

(** *** The sort *)

Lemma key_lt_above b c :
  key_lt (sort_key b) (sort_key c) = true -> above b c.
Proof.
  unfold key_lt, sort_key, above. cbn [fst snd].
  destruct (Qeq_bool (- y b) (- y c)) eqn:E.
  - intros _. apply Qeq_bool_iff in E. rewrite E. apply Qle_refl.
  - unfold Qlt_bool. intros H. apply negb_true_iff in H.
    apply Qlt_le_weak, Qnot_le_lt. intros Hle.
    apply Qle_bool_iff in Hle. congruence.
Qed.

Lemma key_lt_false_above b c :
  key_lt (sort_key b) (sort_key c) = false -> above c b.
Proof.
  unfold key_lt, sort_key, above. cbn [fst snd].
  destruct (Qeq_bool (- y b) (- y c)) eqn:E.
  - intros _. apply Qeq_bool_iff in E. rewrite E. apply Qle_refl.
  - unfold Qlt_bool. intros H. apply negb_false_iff in H.
    now apply Qle_bool_iff.
Qed.

Lemma above_trans a b c : above a b -> above b c -> above a c.
Proof. unfold above. apply Qle_trans. Qed.

Lemma Forall_insert_block (P : TextBlock -> Prop) b : forall l,
  P b -> Forall P l -> Forall P (insert_block b l).
Proof.
  induction l as [|c l IH]; intros Hb Hl; simpl.
  - auto.
  - destruct (key_lt (sort_key b) (sort_key c)); [auto|].
    inversion Hl; subst. auto.
Qed.

Lemma insert_block_sorted b : forall l,
  StronglySorted above l -> StronglySorted above (insert_block b l).
Proof.
  induction l as [|c l IH]; intros Hl; simpl.
  - repeat constructor.
  - inversion Hl as [|? ? Hs Hf]; subst.
    destruct (key_lt (sort_key b) (sort_key c)) eqn:E.
    + constructor; [assumption|]. apply key_lt_above in E.
      constructor; [assumption|].
      eapply Forall_impl; [|exact Hf]. intros d Hd.
      now apply above_trans with c.
    + constructor; [auto|].
      apply Forall_insert_block; [|assumption].
      now apply key_lt_false_above.
Qed.

Lemma fold_insert_sorted : forall l acc,
  StronglySorted above acc ->
  StronglySorted above (fold_left (fun acc b => insert_block b acc) l acc).
Proof.
  induction l as [|b l IH]; intros acc Hacc; simpl; [assumption|].
  apply IH. now apply insert_block_sorted.
Qed.

Lemma sort_blocks_sorted l : StronglySorted above (sort_blocks l).
Proof. apply fold_insert_sorted. constructor. Qed.

(** *** The anchors *)

Lemma blocks_sorted_anchors : forall l,
  StronglySorted above l -> StronglySorted anchor_le (map y l).
Proof.
  induction l as [|b l IH]; intros Hl; simpl; [constructor|].
  inversion Hl as [|? ? Hs Hf]; subst. constructor; [auto|].
  apply Forall_map. exact Hf.
Qed.

Lemma stream_anchors_Forall (P : Q -> Prop) : forall rest a m,
  P a -> Forall P (map y rest) -> Forall P (anchors (stream a m rest)).
Proof.
  induction rest as [|f rest IH]; intros a m Ha Hr; cbn [stream].
  - simpl. auto.
  - simpl in Hr. inversion Hr; subst.
    destruct (Qle_bool (Qabs (y f - a)) 5).
    + now apply IH.
    + cbn [anchors flat_map cluster y_position app]. constructor; [assumption|].
      now apply IH.
Qed.

Lemma stream_anchors_sorted : forall rest a m,
  StronglySorted anchor_le (a :: map y rest) ->
  StronglySorted anchor_le (anchors (stream a m rest)).
Proof.
  induction rest as [|f rest IH]; intros a m Hs; cbn [stream].
  - simpl. repeat constructor.
  - simpl in Hs. inversion Hs as [|? ? Hs1 Hf1]; subst.
    inversion Hs1 as [|? ? Hs2 Hf2]; subst.
    inversion Hf1 as [|? ? Haf Har]; subst.
    destruct (Qle_bool (Qabs (y f - a)) 5).
    + apply IH. now constructor.
    + cbn [anchors flat_map cluster y_position app]. constructor.
      * now apply IH.
      * now apply stream_anchors_Forall.
Qed.

Lemma stream_all_anchored : forall rest a m,
  map y_position (stream a m rest) = map Some (anchors (stream a m rest)).
Proof.
  induction rest as [|f rest IH]; intros a m; cbn [stream].
  - reflexivity.
  - destruct (Qle_bool (Qabs (y f - a)) 5); [apply IH|].
    cbn [anchors flat_map cluster y_position app map]. f_equal. apply IH.
Qed.

Lemma insert_block_perm b : forall l, Permutation (b :: l) (insert_block b l).
Proof.
  induction l as [|c l IH]; simpl; [reflexivity|].
  destruct (key_lt (sort_key b) (sort_key c)); [reflexivity|].
  rewrite perm_swap. now constructor.
Qed.

Lemma fold_insert_perm : forall l acc,
  Permutation (l ++ acc) (fold_left (fun acc b => insert_block b acc) l acc).
Proof.
  induction l as [|b l IH]; intros acc; simpl; [reflexivity|].
  rewrite <- IH. rewrite <- insert_block_perm.
  apply Permutation_middle.
Qed.

Lemma sort_blocks_perm l : Permutation l (sort_blocks l).
Proof.
  unfold sort_blocks. rewrite <- fold_insert_perm. now rewrite app_nil_r.
Qed.

(** C1. The paragraphs [_group_text_into_paragraphs] returns are those of
    the streaming reference: a current cluster anchored at the [y] of its
    first fragment, a fragment joining it exactly when it is within 5 of
    the anchor, the cluster emitted and a new one opened otherwise, the
    last cluster emitted at the end; no fragment gives no paragraph.  The
    comparison is with the anchor: of three fragments at 100, 96 and 92
    the third opens a new cluster. *)
Theorem group_text_into_paragraphs_streams :
  (forall text_blocks : list TextBlock,
     _group_text_into_paragraphs text_blocks =
     reference_grouping text_blocks) /\
  _group_text_into_paragraphs [] = [] /\
  map (fun p => map text (text_parts p))
      (_group_text_into_paragraphs Scenarios.drifting) =
  [[of_string "a"; of_string "b"]; [of_string "c"]].
Proof.
  split; [exact group_is_reference|]. split; reflexivity.
Qed.

(** C6. The blocks of a page come out of the sort ordered by the first
    component of the key, and the anchors of the paragraphs made from
    them, one for each paragraph, are in that order too: from the top of
    the page to the bottom. *)
Theorem paragraph_anchors_top_to_bottom (visited : list TextBlock) :
  let text_blocks := _extract_text_with_layout visited in
  let paragraphs := _group_text_into_paragraphs text_blocks in
  Permutation visited text_blocks /\
  StronglySorted above text_blocks /\
  map y_position paragraphs = map Some (anchors paragraphs) /\
  StronglySorted anchor_le (anchors paragraphs).
Proof.
  cbv zeta. unfold _extract_text_with_layout.
  split; [apply sort_blocks_perm|]. split; [apply sort_blocks_sorted|].
  rewrite group_is_reference.
  pose proof (sort_blocks_sorted visited) as Hs.
  destruct (sort_blocks visited) as [|b rest]; cbn [reference_grouping].
  - split; [reflexivity|constructor].
  - split; [apply stream_all_anchored|].
    apply stream_anchors_sorted.
    exact (blocks_sorted_anchors _ Hs).
Qed.

End LayoutFacts.

(** ** Image fitting *)

Module ImagesFacts.
Import Text Images.
Local Open Scope Q_scope.

Lemma div_nonzero a b : ~ b == 0 -> div a b = inr (a / b).
Proof.
  intros Hb. unfold div. destruct (Qeq_bool b 0) eqn:E; [|reflexivity].
  apply Qeq_bool_iff in E. contradiction.
Qed.

Lemma pos_nonzero q : 0 < q -> ~ q == 0.
Proof. intros H E. rewrite E in H. exact (Qlt_irrefl 0 H). Qed.

(** *** The size of an image in [modern_pdf2docx_converter.py] *)

(** The difference of lengths is a plain [int]. *)
Lemma minus_plain a b : inches_of (minus a b) = inl AttributeError.
Proof. reflexivity. Qed.

Lemma image_size_no_inches section image_data :
  image_size section image_data = inl AttributeError.
Proof. unfold image_size. now rewrite minus_plain. Qed.

(** C4. The image fitter of [modern_pdf2docx_converter.py] returns no
    size: [max_width] is a difference of lengths, a plain [int], and
    [max_width.inches] raises [AttributeError], whatever the section and
    the image.  For the image of 720 by 960 pixels and the printable area
    of 6 by 9 inches it returns no 6.0 by 8.0, and the document gets
    nothing. *)
Theorem image_size_raises :
  (forall section image_data,
     image_size section image_data = inl AttributeError) /\
  max_width_inches Scenarios.six_by_nine == 6 /\
  max_height_inches Scenarios.six_by_nine == 9 /\
  image_size Scenarios.six_by_nine (Scenarios.picture 720 960) =
  inl AttributeError /\
  Assembly.docx_document
    (Assembly._add_image_to_document Scenarios.new_document
                                     (Scenarios.picture 720 960)) = [].
Proof.
  split; [exact image_size_no_inches|].
  repeat split; reflexivity.
Qed.

(** C5. No final width and no final height come out of
    [_add_image_to_document], so that there is no aspect ratio to compare
    with the native one: the exception is logged and the converter is
    left as it was, the document, the section and the counters, for every
    image; so it is for the image of 2001 by 100 pixels. *)
Theorem image_never_placed :
  (forall c image_data, Assembly._add_image_to_document c image_data = c) /\
  Assembly._add_image_to_document Scenarios.new_document
                                  (Scenarios.picture 2001 100) =
  Scenarios.new_document.
Proof.
  split; [|reflexivity]. intros c image_data.
  unfold Assembly._add_image_to_document.
  now rewrite image_size_no_inches.
Qed.

(** C9. An image that cannot be decoded is recorded with the size of 100
    by 100 pixels, and it is not placed: the computation of its size
    raises [AttributeError] and the document is left as it was.  A width
    of zero is not divided by either: the same exception comes first. *)
Theorem fallback_image_not_placed (c : Assembly.Converter)
    (page_idx img_idx : nat) (o : RawImage) :
  decoded o = None ->
  width (image_info page_idx img_idx o) = 100%Z /\
  height (image_info page_idx img_idx o) = 100%Z /\
  image_size (Assembly.section c) (image_info page_idx img_idx o) =
  inl AttributeError /\
  Assembly.docx_document
    (Assembly._add_image_to_document c (image_info page_idx img_idx o)) =
  Assembly.docx_document c /\
  image_size (Assembly.section c) (Scenarios.picture 0 100) =
  inl AttributeError.
Proof.
  intros Hd. unfold image_info. rewrite Hd. cbn [width height].
  repeat split; reflexivity.
Qed.

Lemma fallback_image_not_placed_witness :
  width (image_info 0 0 Scenarios.undecoded) = 100%Z /\
  height (image_info 0 0 Scenarios.undecoded) = 100%Z /\
  image_size Scenarios.six_by_nine (image_info 0 0 Scenarios.undecoded) =
  inl AttributeError /\
  Assembly.docx_document
    (Assembly._add_image_to_document Scenarios.new_document
                                     (image_info 0 0 Scenarios.undecoded)) =
  [] /\
  image_size Scenarios.six_by_nine (Scenarios.picture 0 100) =
  inl AttributeError.
Proof.
  apply (fallback_image_not_placed Scenarios.new_document 0 0
                                   Scenarios.undecoded).
  reflexivity.
Defined.

End ImagesFacts.

(** ** Document assembly *)

Module AssemblyFacts.
Import Text Layout Images Spacing Assembly SpacingFacts.

(** *** The text of a paragraph does not depend on the counters *)

Lemma combine_step_join cp prev st part :
  exists st',
    combine_step (cp, prev, st) part = (join_step (cp, prev) part, st').
Proof.
  unfold combine_step, join_step.
  pose proof (fix_text_spacing_fst st (Layout.text part)) as E.
  destruct (_fix_text_spacing st (Layout.text part)) as [t st'].
  simpl in E. subst t. exists st'. now destruct prev.
Qed.

Lemma fold_combine_join : forall parts acc st,
  exists st',
    fold_left combine_step parts (acc, st) =
    (fold_left join_step parts acc, st').
Proof.
  induction parts as [|part parts IH]; intros [cp prev] st; cbn [fold_left].
  - now exists st.
  - destruct (combine_step_join cp prev st part) as [st1 E]. rewrite E.
    destruct (join_step (cp, prev) part) as [cp1 prev1]. apply IH.
Qed.

Lemma combine_text_fst st parts :
  fst (_combine_text_with_spacing st parts) = combined_text parts.
Proof.
  unfold _combine_text_with_spacing, combined_text.
  destruct parts as [|part parts]; [reflexivity|].
  destruct (fold_combine_join (part :: parts) ([], None) st) as [st' E].
  rewrite E.
  destruct (fold_left join_step (part :: parts) ([], None)) as [cp prev].
  apply fix_text_spacing_fst.
Qed.

(** *** What the code appends for a page *)

Lemma add_paragraph_items c paragraph_data :
  docx_document (_add_paragraph_to_document c paragraph_data) =
  docx_document c ++ paragraph_items paragraph_data /\
  section (_add_paragraph_to_document c paragraph_data) = section c.
Proof.
  unfold _add_paragraph_to_document, paragraph_items.
  pose proof (combine_text_fst (conversion_stats c)
                               (text_parts paragraph_data)) as E.
  destruct (_combine_text_with_spacing (conversion_stats c)
                                       (text_parts paragraph_data)) as [t st].
  simpl in E. subst t.
  destruct (blank (combined_text (text_parts paragraph_data))); simpl.
  - now rewrite app_nil_r.
  - auto.
Qed.

Lemma add_paragraphs_items : forall paragraphs c,
  docx_document (fold_left _add_paragraph_to_document paragraphs c) =
  docx_document c ++ flat_map paragraph_items paragraphs /\
  section (fold_left _add_paragraph_to_document paragraphs c) = section c.
Proof.
  induction paragraphs as [|q qs IH]; intros c; simpl.
  - now rewrite app_nil_r.
  - destruct (IH (_add_paragraph_to_document c q)) as [Hd Hs].
    destruct (add_paragraph_items c q) as [Hd1 Hs1].
    rewrite Hd, Hs, Hd1, Hs1. now rewrite app_assoc.
Qed.

Lemma add_image_items c image_data :
  docx_document (_add_image_to_document c image_data) =
  docx_document c ++ picture_items (section c) image_data /\
  section (_add_image_to_document c image_data) = section c.
Proof.
  unfold _add_image_to_document, picture_items.
  destruct (image_size (section c) image_data) as [e|[w h]]; simpl.
  - now rewrite app_nil_r.
  - auto.
Qed.

Lemma add_images_items : forall imgs c,
  docx_document (fold_left _add_image_to_document imgs c) =
  docx_document c ++ flat_map (picture_items (section c)) imgs /\
  section (fold_left _add_image_to_document imgs c) = section c.
Proof.
  induction imgs as [|i imgs IH]; intros c; cbn [fold_left flat_map].
  - now rewrite app_nil_r.
  - destruct (IH (_add_image_to_document c i)) as [Hd Hs].
    destruct (add_image_items c i) as [Hd1 Hs1].
    rewrite Hd, Hs, Hd1, Hs1. now rewrite app_assoc.
Qed.

Lemma process_page_items c page_content :
  docx_document (_process_page_content c page_content) =
  docx_document c ++ page_items (section c) page_content /\
  section (_process_page_content c page_content) = section c.
Proof.
  unfold _process_page_content, page_items.
  set (ps := _group_text_into_paragraphs (text_blocks page_content)).
  destruct (add_paragraphs_items ps c) as [Hd Hs].
  destruct (add_images_items (images page_content)
              (fold_left _add_paragraph_to_document ps c)) as [Hd1 Hs1].
  rewrite Hd1, Hs1, Hd, Hs. now rewrite app_assoc.
Qed.

(** A page adds no page break of its own. *)
Lemma page_items_no_break sec page_content :
  Forall (fun i => is_break i = false) (page_items sec page_content).
Proof.
  unfold page_items. apply Forall_app. split; apply Forall_flat_map.
  - apply Forall_forall. intros q _. unfold paragraph_items.
    destruct (blank _); repeat constructor.
  - apply Forall_forall. intros i _. unfold picture_items.
    destruct (image_size sec i) as [e|[w h]]; repeat constructor.
Qed.

(** *** The loop over the pages *)

Lemma page_step_items final c page_content :
  docx_document (page_step final c page_content) =
  docx_document c
  ++ page_items (section c) page_content ++ break_after final page_content /\
  section (page_step final c page_content) = section c.
Proof.
  unfold page_step, break_after.
  destruct (process_page_items c page_content) as [Hd Hs].
  destruct (negb (page_eqb page_content final)); simpl; rewrite Hd, Hs.
  - now rewrite app_assoc.
  - now rewrite app_nil_r.
Qed.

Lemma page_loop_items final : forall ps c,
  docx_document (fold_left (page_step final) ps c) =
  docx_document c
  ++ flat_map (fun p => page_items (section c) p ++ break_after final p) ps.
Proof.
  induction ps as [|p ps IH]; intros c; cbn [fold_left flat_map].
  - now rewrite app_nil_r.
  - rewrite IH. destruct (page_step_items final c p) as [Hd Hs].
    rewrite Hd, Hs. now rewrite <- !app_assoc.
Qed.

Lemma str_eqb_refl t : str_eqb t t = true.
Proof. unfold str_eqb. destruct (list_eq_dec N.eq_dec t t); congruence. Qed.

Lemma Qeq_bool_same q : Qeq_bool q q = true.
Proof. apply Qeq_bool_iff. reflexivity. Qed.

Lemma list_eqb_refl (A : Type) (eqb : A -> A -> bool) :
  (forall a, eqb a a = true) -> forall l, list_eqb eqb l l = true.
Proof.
  intros H. induction l as [|a l IH]; [reflexivity|].
  simpl. now rewrite H, IH.
Qed.

Lemma page_eqb_refl p : page_eqb p p = true.
Proof.
  unfold page_eqb.
  rewrite Nat.eqb_refl, !Qeq_bool_same.
  rewrite (list_eqb_refl _ block_eqb), (list_eqb_refl _ image_eqb);
    [reflexivity| |].
  - intros i. unfold image_eqb.
    rewrite !str_eqb_refl, !Z.eqb_refl, !Nat.eqb_refl.
    now rewrite (list_eqb_refl _ N.eqb N.eqb_refl).
  - intros b. unfold block_eqb.
    rewrite !str_eqb_refl, !Qeq_bool_same.
    now rewrite (list_eqb_refl _ Qeq_bool Qeq_bool_same).
Qed.

Lemma page_eqb_number p q :
  page_eqb p q = true -> page_number p = page_number q.
Proof.
  unfold page_eqb. intros H.
  repeat (apply andb_prop in H; destruct H as [H _]).
  now apply Nat.eqb_eq.
Qed.

(** With page numbers that are all different, a break follows each page
    but the last. *)
Lemma distinct_pages_breaks sec final : forall ps,
  NoDup (map page_number (ps ++ [final])) ->
  flat_map (fun p => page_items sec p ++ break_after final p) (ps ++ [final]) =
  breaks_between (map (page_items sec) (ps ++ [final])).
Proof.
  induction ps as [|p ps IH]; intros Hnd.
  - simpl. unfold break_after. rewrite page_eqb_refl. simpl.
    now rewrite !app_nil_r.
  - simpl in Hnd. inversion Hnd as [|? ? Hp Hrest]; subst.
    change ((p :: ps) ++ [final]) with (p :: (ps ++ [final])).
    cbn [flat_map map breaks_between]. rewrite (IH Hrest).
    assert (E : break_after final p = [PageBreak]).
    { unfold break_after. destruct (page_eqb p final) eqn:Eq; [|reflexivity].
      exfalso. apply Hp. rewrite (page_eqb_number _ _ Eq).
      rewrite map_app. apply in_or_app. right. now left. }
    rewrite E.
    destruct (map (page_items sec) (ps ++ [final])) as [|b bs] eqn:Em.
    + destruct ps; discriminate.
    + now rewrite <- app_assoc.
Qed.

Lemma last_cons (A : Type) : forall (l : list A) a d,
  last (a :: l) d = last l a.
Proof.
  induction l as [|b l IH]; intros a d; [reflexivity|].
  change (last (a :: b :: l) d) with (last (b :: l) d).
  rewrite (IH b d). symmetry. apply IH.
Qed.

(** The document of [create_docx_document] for pages whose numbers are
    all different: the pages in their order, one page break between two
    pages, none before the first and none after the last. *)
Lemma distinct_pages_document new_section template st extracted_content :
  NoDup (map page_number (pages extracted_content)) ->
  docx_document
    (create_docx_document new_section template st extracted_content) =
  breaks_between
    (map (page_items
            (_apply_template_formatting new_section template
                                        extracted_content))
         (pages extracted_content)).
Proof.
  intros Hnd. unfold create_docx_document.
  destruct (pages extracted_content) as [|first rest] eqn:E; [reflexivity|].
  rewrite page_loop_items. cbn [docx_document section app].
  destruct (@exists_last _ (first :: rest)) as [ps [final Hl]];
    [discriminate|].
  rewrite <- (last_cons _ rest first first).
  rewrite Hl in *. rewrite last_last.
  now apply distinct_pages_breaks.
Qed.

Lemma breaks_between_cons : forall bs b,
  breaks_between (b :: bs) = b ++ flat_map (fun x => PageBreak :: x) bs.
Proof.
  induction bs as [|c bs IH]; intros b.
  - simpl. now rewrite app_nil_r.
  - change (breaks_between (b :: c :: bs))
      with (b ++ PageBreak :: breaks_between (c :: bs)).
    now rewrite IH.
Qed.

Lemma advanced_fold bodies first : forall rest doc,
  Forall (fun p => (first < p)%Z) rest ->
  fold_left (advanced_page_step bodies first) rest doc =
  doc ++ flat_map (fun x => PageBreak :: x) (map bodies rest).
Proof.
  induction rest as [|p rest IH]; intros doc H.
  - simpl. now rewrite app_nil_r.
  - inversion H as [|? ? Hp Hrest]; subst.
    cbn [fold_left map flat_map]. rewrite (IH _ Hrest).
    unfold advanced_page_step. apply Z.ltb_lt in Hp. rewrite Hp.
    now rewrite <- !app_assoc.
Qed.

(** X25. In the advanced converter, for page numbers that are all above
    the first, the document is the bodies of the pages with one page
    break between two of them. *)
Lemma advanced_loop_breaks bodies first rest :
  Forall (fun p => (first < p)%Z) rest ->
  advanced_page_loop bodies (first :: rest) =
  breaks_between (map bodies (first :: rest)).
Proof.
  intros H. unfold advanced_page_loop. cbn [fold_left map].
  rewrite (advanced_fold bodies first rest _ H), breaks_between_cons.
  unfold advanced_page_step. now rewrite Z.ltb_irrefl.
Qed.

End AssemblyFacts.

(** ** Pages and results *)

Module ConvertFacts.
Import Text Layout Images Assembly Convert Scenarios.

(** A conversion returns a result whose status is one of the two. *)
Lemma convert_returns w output_path password start_page end_page pages :
  exists r,
    convert_pdf_to_docx w output_path password start_page end_page pages = r /\
    (status r = success \/ status r = error).
Proof.
  eexists. split; [reflexivity|].
  destruct (convert_pdf_to_docx w output_path password
                                start_page end_page pages); simpl; auto.
Qed.

(** The modern converter reports a success when the extraction gives a
    content and the save does not raise, whatever is at the output path. *)
Lemma convert_success w output_path password start_page end_page pages :
  status (convert_pdf_to_docx w output_path password start_page end_page pages)
  = success <->
  (exists content st,
     extract_pdf_content (reader w) no_stats password
                         start_page end_page pages = (Some content, st)) /\
  save w = inr tt.
Proof.
  unfold convert_pdf_to_docx.
  destruct (extract_pdf_content (reader w) no_stats password
                                start_page end_page pages) as [[content|] st].
  - destruct (save w) as [e|[]]; simpl; split.
    + discriminate.
    + intros [_ H]. discriminate.
    + intros _. split; [now exists content, st|reflexivity].
    + reflexivity.
  - simpl. split; [discriminate|]. intros [[content [st' H]] _]. discriminate.
Qed.

(** X26. The advanced converter reports a success only when there is a
    file at the output path and it is not empty. *)
Lemma advanced_success_checked w output_path password start_page end_page
      pages :
  status (advanced_convert_pdf_to_docx w output_path password
                                       start_page end_page pages) = success ->
  exists size, file_size w = Some size /\ (0 < size)%N.
Proof.
  unfold advanced_convert_pdf_to_docx.
  destruct (fitz_open w) as [e|n]; simpl; [discriminate|].
  destruct (match password with Some (_ :: _) => negb (authenticate w)
                              | _ => false end); simpl; [discriminate|].
  destruct (doc_save w) as [e|[]]; simpl; [discriminate|].
  destruct (file_size w) as [size|]; simpl; [|discriminate].
  destruct (N.ltb_spec 0 size); simpl; [|discriminate].
  intros _. now exists size.
Qed.

(** *** Pages asked for once *)

Lemma map_inj_NoDup (A B : Type) (f : A -> B) : forall l,
  (forall a b, In a l -> In b l -> f a = f b -> a = b) ->
  NoDup l -> NoDup (map f l).
Proof.
  induction l as [|a l IH]; intros Hinj Hnd; simpl; [constructor|].
  inversion Hnd as [|? ? Ha Hl]; subst. constructor.
  - rewrite in_map_iff. intros [b [Hb Hin]].
    apply Ha. rewrite (Hinj a b); auto; [now left|now right].
  - apply IH; [|assumption]. intros x z Hx Hz. apply Hinj; now right.
Qed.

Lemma range_NoDup start stop : NoDup (range start stop).
Proof.
  unfold range. apply map_inj_NoDup; [|apply seq_NoDup].
  intros a b _ _ H. lia.
Qed.

Lemma range_nonneg start stop :
  (0 <= start)%Z -> Forall (fun p => (0 <= p)%Z) (range start stop).
Proof.
  intros H. unfold range. apply Forall_map, Forall_forall. intros i _. lia.
Qed.

Lemma select_pages_nonneg total_pages start_page end_page pages :
  Forall (fun p => (0 <= p)%Z)
         (select_pages total_pages start_page end_page pages).
Proof.
  unfold select_pages.
  destruct pages as [[|p ps]|]; try (apply range_nonneg; lia).
  apply Forall_forall. intros q Hq. apply filter_In in Hq.
  destruct Hq as [_ Hq]. apply andb_prop in Hq. destruct Hq as [Hq _].
  now apply Z.leb_le.
Qed.

(** A range of pages has each page once. *)
Lemma select_range_NoDup total_pages start_page end_page :
  NoDup (select_pages total_pages start_page end_page None).
Proof. apply range_NoDup. Qed.

Lemma extracted_page_numbers reader st password start_page end_page pages
      content st' :
  extract_pdf_content reader st password start_page end_page pages =
  (Some content, st') ->
  NoDup (page_indices content) ->
  NoDup (map page_number (Assembly.pages content)).
Proof.
  unfold extract_pdf_content.
  destruct reader as [e|pdf]; [discriminate|].
  set (idx := select_pages (Z.of_nat (length (pdf_pages pdf)))
                           start_page end_page pages).
  pose proof (select_pages_nonneg (Z.of_nat (length (pdf_pages pdf)))
                                  start_page end_page pages) as Hpos.
  fold idx in Hpos.
  assert (H : forall c s,
             (Some {| Assembly.pages :=
                        map (fun page_idx =>
                               _extract_page_content
                                 (nth (Z.to_nat page_idx) (pdf_pages pdf) no_page)
                                 (Z.to_nat page_idx)) idx;
                      total_pages := length idx;
                      page_indices := idx |}, s) = (Some c, st') ->
             NoDup (page_indices c) ->
             NoDup (map page_number (Assembly.pages c))).
  { intros c s [= <- _]. cbn [page_indices Assembly.pages]. intros Hnd.
    rewrite map_map. cbn [_extract_page_content page_number].
    apply map_inj_NoDup; [|assumption].
    rewrite Forall_forall in Hpos.
    intros a b Ha Hb Hab. apply Hpos in Ha, Hb. lia. }
  destruct (pages_readable pdf password); [apply H|discriminate].
Qed.

(** X27. One page break between two pages when each page is asked for
    once, as it is when a range of pages is asked for. *)
Lemma pages_once_document w password start_page end_page pages content st :
  extract_pdf_content (reader w) no_stats password start_page end_page pages =
  (Some content, st) ->
  NoDup (page_indices content) ->
  converted_document w password start_page end_page pages =
  Some (breaks_between
          (map (page_items
                  (_apply_template_formatting (new_section w) (template w)
                                              content))
               (Assembly.pages content))).
Proof.
  intros E Hnd. unfold converted_document. rewrite E. f_equal.
  apply AssemblyFacts.distinct_pages_document.
  exact (extracted_page_numbers _ _ _ _ _ _ _ _ E Hnd).
Qed.

(** C7. Asked for page 0 twice, the modern converter puts the two pages
    in the document with no page break between them: the second copy is
    the last page and the first is equal to it.  Asked for pages 1 and 0
    in this order, the advanced converter puts no page break before
    page 0, whose number is not above the first. *)
Theorem page_break_missing :
  select_pages 1 0 None (Some [0; 0]%Z) = [0; 0]%Z /\
  converted_document empty_output None 0 None (Some [0; 0]%Z) =
  Some [ParagraphItem [hello]; ParagraphItem [hello]] /\
  select_pages 2 0 None (Some [1; 0]%Z) = [1; 0]%Z /\
  advanced_page_loop page_body [1; 0]%Z = page_body 1 ++ page_body 0.
Proof. repeat split; reflexivity. Qed.

(** C8. When the save raises nothing and the file at the output path has
    the size 0 afterwards, as for [/dev/stdout] with a pipe behind it, the
    modern converter reports a success; the advanced converter reports an
    error. *)
Theorem success_with_empty_output :
  output_size empty_output = Some 0%N /\
  status (convert_pdf_to_docx empty_output (of_string "/dev/stdout")
                              None 0 None None) = success /\
  file_size advanced_empty_output = Some 0%N /\
  status (advanced_convert_pdf_to_docx advanced_empty_output
                                       (of_string "/dev/stdout")
                                       None 0 None None) = error.
Proof. repeat split; reflexivity. Qed.

End ConvertFacts.

(** * Further properties *)

(** ** Spacing repair *)

Module SpacingExtras.
Import Text Re Spacing ReFacts TextFacts SpacingFacts.

Lemma nonspace_insert_between P Q : forall s,
  nonspace (insert_between P Q s) = nonspace s.
Proof.
  induction s as [|a t IH]; [reflexivity|].
  destruct t as [|b t]; [reflexivity|].
  rewrite insert_between_cons2.
  change (nonspace (a :: b :: t))
    with (if negb (space a) then a :: nonspace (b :: t) else nonspace (b :: t)).
  rewrite <- IH.
  destruct (P a && Q b); unfold nonspace; simpl; destruct (space a); reflexivity.
Qed.

Lemma nonspace_squeeze : forall s b, nonspace (squeeze b s) = nonspace s.
Proof.
  induction s as [|c t IH]; intros b; [reflexivity|].
  cbn [squeeze]. unfold nonspace in *. cbn [filter].
  destruct (space c) eqn:E; cbn [negb].
  - destruct b; [apply IH|]. cbn [filter]. rewrite space_sp. apply IH.
  - cbn [filter]. rewrite E. cbn [negb]. f_equal. apply IH.
Qed.

Lemma nonspace_repair s : nonspace (repair s) = nonspace s.
Proof.
  rewrite repair_five. unfold five_corrections.
  rewrite (split_glued_fixed _ (two_steps_clean s)).
  now rewrite nonspace_squeeze, !nonspace_insert_between.
Qed.

Lemma squeeze_single_spaced : forall s,
  single_spaced (squeeze false s) /\
  single_spaced (squeeze true s) /\
  match squeeze true s with d :: _ => space d = false | [] => True end.
Proof.
  induction s as [|c t [IHf [IHt IHh]]]; [simpl; auto|].
  cbn [squeeze]. destruct (space c) eqn:E.
  - repeat split; auto.
  - cbn [single_spaced]. rewrite E. repeat split; auto; discriminate.
Qed.

(** X1. The repair only adds or removes whitespace: the characters of the
    returned string that are not whitespace are those of the given
    string, in the same order. *)
Theorem fix_text_spacing_keeps_characters (st : Stats) (s : str) :
  nonspace (fst (_fix_text_spacing st s)) = nonspace s.
Proof. rewrite fix_text_spacing_fst. apply nonspace_repair. Qed.

(** X2. In the returned string no lowercase letter is directly followed
    by an uppercase letter or by a digit, and none of [.], [!], [?] is
    directly followed by an uppercase letter. *)
Theorem fix_text_spacing_leaves_no_boundary (st : Stats) (s : str) :
  no_boundary lower upper (fst (_fix_text_spacing st s)) /\
  no_boundary punct upper (fst (_fix_text_spacing st s)) /\
  no_boundary lower digit (fst (_fix_text_spacing st s)).
Proof.
  rewrite fix_text_spacing_fst, repair_five.
  destruct (five_clean s) as [H1 [H2 [H3 _]]]. auto.
Qed.

(** X3. In the returned string every whitespace character is a space and
    no two whitespace characters are next to each other. *)
Theorem fix_text_spacing_single_spaces (st : Stats) (s : str) :
  single_spaced (fst (_fix_text_spacing st s)).
Proof.
  rewrite fix_text_spacing_fst, repair_five. unfold five_corrections.
  apply squeeze_single_spaced.
Qed.

(** X4. The repair touches one counter only, which it raises by one when
    the returned string differs from the given one and leaves alone
    otherwise; on a string that a repair returned it leaves the counters
    as they are. *)
Theorem fix_text_spacing_counts_changes (st st0 : Stats) (s : str) :
  let st' := snd (_fix_text_spacing st s) in
  pages_processed st' = pages_processed st /\
  text_blocks_extracted st' = text_blocks_extracted st /\
  images_extracted st' = images_extracted st /\
  spacing_fixes_applied st' =
    (if list_eq_dec N.eq_dec (fst (_fix_text_spacing st s)) s
     then spacing_fixes_applied st else S (spacing_fixes_applied st)) /\
  snd (_fix_text_spacing st (fst (_fix_text_spacing st0 s))) = st.
Proof.
  cbv zeta. split; [|split; [|split; [|split]]].
  - unfold _fix_text_spacing. cbn [snd]. now destruct (str_eqb _ s).
  - unfold _fix_text_spacing. cbn [snd]. now destruct (str_eqb _ s).
  - unfold _fix_text_spacing. cbn [snd]. now destruct (str_eqb _ s).
  - unfold _fix_text_spacing. cbn [snd fst]. unfold str_eqb.
    now destruct (list_eq_dec N.eq_dec _ s).
  - pose proof (fix_text_spacing_idempotent_text st st0 s) as E.
    unfold _fix_text_spacing in *. cbn [fst snd] in *.
    rewrite E. unfold str_eqb.
    now destruct (list_eq_dec N.eq_dec _ _).
Qed.

End SpacingExtras.

(** ** Layout reconstruction *)

Module LayoutExtras.
Import Text Layout LayoutFacts.
Local Open Scope Q_scope.

Lemma stream_head : forall rest a first m,
  exists parts tail,
    stream a (first :: m) rest = cluster a (first :: parts) :: tail.
Proof.
  induction rest as [|f rest IH]; intros a first m; cbn [stream].
  - now exists m, [].
  - destruct (Qle_bool (Qabs (y f - a)) 5).
    + change ((first :: m) ++ [f]) with (first :: (m ++ [f])). apply IH.
    + now exists m, (stream (y f) [f] rest).
Qed.

Lemma stream_cut : forall rest a m, cut_at_gaps (stream a m rest).
Proof.
  induction rest as [|f rest IH]; intros a m; cbn [stream].
  - simpl. auto.
  - destruct (Qle_bool (Qabs (y f - a)) 5) eqn:E; [apply IH|].
    destruct (stream_head rest (y f) f []) as [parts [tail H]].
    specialize (IH (y f) [f]). rewrite H in *.
    cbn [cut_at_gaps cluster y_position text_parts]. auto.
Qed.

(** X5. The paragraphs are the given blocks in their order, cut into
    pieces: each paragraph has at least one block, is anchored at the [y]
    of its first block, holds only blocks within 5 of that anchor, and the
    paragraph after it starts with a block that is not within 5 of that
    anchor.  No block is lost, repeated or moved. *)
Theorem paragraphs_cut_the_blocks (text_blocks : list TextBlock) :
  concat (map text_parts (_group_text_into_paragraphs text_blocks)) =
  text_blocks /\
  Forall anchored (_group_text_into_paragraphs text_blocks) /\
  cut_at_gaps (_group_text_into_paragraphs text_blocks).
Proof.
  destruct (grouping_partitions text_blocks) as [H1 H2].
  split; [exact H1|]. split; [exact H2|].
  rewrite group_is_reference.
  destruct text_blocks as [|b rest]; [exact I|]. apply stream_cut.
Qed.

(** *** The order of the keys *)

Lemma key_lt_spec b c :
  key_lt (sort_key b) (sort_key c) = true <->
  - y b < - y c \/ (- y b == - y c /\ x b < x c).
Proof.
  unfold key_lt, sort_key, Qlt_bool. cbn [fst snd].
  destruct (Qeq_bool (- y b) (- y c)) eqn:E.
  - apply Qeq_bool_iff in E. rewrite negb_true_iff.
    split.
    + intros H. right. split; [assumption|].
      apply Qnot_le_lt. intros Hle. apply Qle_bool_iff in Hle. congruence.
    + intros [H|[_ H]]; [lra|].
      destruct (Qle_bool (x c) (x b)) eqn:L; [|reflexivity].
      apply Qle_bool_iff in L. lra.
  - apply Qeq_bool_neq in E. rewrite negb_true_iff. split.
    + intros H. left. apply Qnot_le_lt. intros Hle.
      apply Qle_bool_iff in Hle. congruence.
    + intros [H|[H _]]; [|contradiction].
      destruct (Qle_bool (- y c) (- y b)) eqn:L; [|reflexivity].
      apply Qle_bool_iff in L. lra.
Qed.

Lemma key_le_spec b c :
  key_le b c <-> - y b < - y c \/ (- y b == - y c /\ x b <= x c).
Proof.
  unfold key_le. split.
  - intros H.
    destruct (Qlt_le_dec (- y b) (- y c)) as [L|L]; [now left|right].
    destruct (Qlt_le_dec (- y c) (- y b)) as [L'|L'].
    + assert (K : key_lt (sort_key c) (sort_key b) = true)
        by (apply key_lt_spec; now left).
      congruence.
    + split; [lra|].
      destruct (Qlt_le_dec (x c) (x b)) as [X|X]; [|assumption].
      assert (K : key_lt (sort_key c) (sort_key b) = true)
        by (apply key_lt_spec; right; split; [lra|assumption]).
      congruence.
  - intros H.
    destruct (key_lt (sort_key c) (sort_key b)) eqn:K; [|reflexivity].
    apply key_lt_spec in K. lra.
Qed.

Lemma key_le_trans a b c : key_le a b -> key_le b c -> key_le a c.
Proof. rewrite !key_le_spec. lra. Qed.

Lemma insert_block_by_key b : forall l,
  StronglySorted key_le l -> StronglySorted key_le (insert_block b l).
Proof.
  induction l as [|c l IH]; intros Hl; simpl.
  - repeat constructor.
  - inversion Hl as [|? ? Hs Hf]; subst.
    destruct (key_lt (sort_key b) (sort_key c)) eqn:E.
    + constructor; [assumption|].
      assert (Hbc : key_le b c).
      { apply key_le_spec. apply key_lt_spec in E. lra. }
      constructor; [assumption|].
      eapply Forall_impl; [|exact Hf]. intros d Hd.
      now apply key_le_trans with c.
    + constructor; [auto|].
      apply Forall_insert_block; assumption.
Qed.

Lemma fold_insert_by_key : forall l acc,
  StronglySorted key_le acc ->
  StronglySorted key_le (fold_left (fun acc b => insert_block b acc) l acc).
Proof.
  induction l as [|b l IH]; intros acc Hacc; simpl; [assumption|].
  apply IH. now apply insert_block_by_key.
Qed.

(** X6. The blocks of a page come out ordered by the whole key: of two
    blocks the one with the greater [y] comes first, and of two blocks
    with the same [y] the one with the smaller [x] does not come after
    the other. *)
Theorem blocks_sorted_by_key (visited : list TextBlock) :
  StronglySorted
    (fun b c => y c < y b \/ (y b == y c /\ x b <= x c))
    (_extract_text_with_layout visited).
Proof.
  unfold _extract_text_with_layout, sort_blocks.
  assert (H : StronglySorted key_le
                (fold_left (fun acc b => insert_block b acc) visited []))
    by (apply fold_insert_by_key; constructor).
  induction H as [|b l Hs IH Hf]; constructor; [assumption|].
  eapply Forall_impl; [|exact Hf]. intros c Hc.
  apply key_le_spec in Hc. lra.
Qed.

End LayoutExtras.

(** ** Document assembly *)

Module AssemblyExtras.
Import Text Layout Images Spacing Assembly Convert Scenarios.
Import SpacingFacts LayoutFacts ImagesFacts AssemblyFacts SpacingExtras.
Local Open Scope Q_scope.

Lemma nonspace_app s t : nonspace (s ++ t) = nonspace s ++ nonspace t.
Proof. unfold nonspace. apply filter_app. Qed.

Lemma join_step_nonspace cp prev part :
  nonspace (concat (fst (join_step (cp, prev) part))) =
  nonspace (concat cp) ++ nonspace (text part).
Proof.
  unfold join_step. cbn [fst].
  rewrite concat_app, nonspace_app. simpl concat. rewrite app_nil_r.
  rewrite nonspace_repair. f_equal.
  destruct prev as [prev_part|]; [|reflexivity].
  destruct (_ && _ && _); [|reflexivity].
  rewrite concat_app, nonspace_app. simpl. now rewrite app_nil_r.
Qed.

Lemma fold_join_nonspace : forall parts cp prev,
  nonspace (concat (fst (fold_left join_step parts (cp, prev)))) =
  nonspace (concat cp) ++ flat_map (fun b => nonspace (text b)) parts.
Proof.
  induction parts as [|part parts IH]; intros cp prev; cbn [fold_left flat_map].
  - now rewrite app_nil_r.
  - pose proof (join_step_nonspace cp prev part) as E.
    destruct (join_step (cp, prev) part) as [cp1 prev1]. cbn [fst] in E.
    rewrite IH, E. now rewrite app_assoc.
Qed.

Lemma combined_text_nonspace parts :
  nonspace (combined_text parts) = flat_map (fun b => nonspace (text b)) parts.
Proof.
  unfold combined_text. destruct parts as [|part parts]; [reflexivity|].
  rewrite nonspace_repair. apply (fold_join_nonspace (part :: parts) [] None).
Qed.

Lemma blank_nonspace t : blank t = true <-> nonspace t = [].
Proof.
  unfold blank, nonspace. induction t as [|c t IH]; simpl; [tauto|].
  destruct (space c); simpl; [exact IH|]. split; discriminate.
Qed.

Lemma blank_combined parts :
  blank (combined_text parts) = forallb (fun b => blank (text b)) parts.
Proof.
  apply eq_true_iff_eq. rewrite blank_nonspace, combined_text_nonspace.
  rewrite forallb_forall. induction parts as [|part parts IH].
  - simpl. tauto.
  - cbn [flat_map]. split.
    + intros H. apply app_eq_nil in H. destruct H as [H1 H2].
      intros b [<-|Hb]; [now apply blank_nonspace|].
      now apply IH.
    + intros H. rewrite (proj1 (blank_nonspace _) (H part (or_introl eq_refl))).
      apply IH. intros b Hb. apply H. now right.
Qed.

(** X7. The text of a paragraph is made of the characters of its parts:
    leaving whitespace aside, the combined text is the texts of the parts
    one after the other, whatever the counters are. *)
Theorem combine_text_keeps_characters (st : Stats) (parts : list TextBlock) :
  nonspace (fst (_combine_text_with_spacing st parts)) =
  flat_map (fun b => nonspace (text b)) parts.
Proof. rewrite combine_text_fst. apply combined_text_nonspace. Qed.

Lemma kept_paragraph_items paragraph_data :
  existsb (fun b => negb (blank (text b))) (text_parts paragraph_data) = true ->
  paragraph_items paragraph_data = [ParagraphItem (text_parts paragraph_data)].
Proof.
  intros H. unfold paragraph_items. rewrite blank_combined.
  destruct (forallb (fun b => blank (text b)) (text_parts paragraph_data))
    eqn:E; [|reflexivity].
  apply existsb_exists in H. destruct H as [b [Hb Hn]].
  rewrite forallb_forall in E. rewrite (E b Hb) in Hn. discriminate.
Qed.

Lemma anchored_has_part p : anchored p -> exists f m, text_parts p = f :: m.
Proof.
  unfold anchored. destruct (text_parts p) as [|f m]; [intros []|].
  intros _. now exists f, m.
Qed.

Lemma stream_parts_Forall (P : TextBlock -> Prop) : forall rest a m,
  Forall P m -> Forall P rest ->
  Forall (fun p => Forall P (text_parts p)) (stream a m rest).
Proof.
  induction rest as [|f rest IH]; intros a m Hm Hr; cbn [stream].
  - repeat constructor. assumption.
  - inversion Hr; subst. destruct (Qle_bool (Qabs (y f - a)) 5).
    + apply IH; [|assumption]. apply Forall_app. auto.
    + constructor; [assumption|]. apply IH; auto.
Qed.

Lemma runs_of_paragraphs : forall ps,
  Forall anchored ps ->
  Forall (fun p => Forall (fun b => blank (text b) = false) (text_parts p)) ps ->
  flat_map item_runs (flat_map paragraph_items ps) =
  concat (map text_parts ps).
Proof.
  induction ps as [|p ps IH]; intros Ha Hb; [reflexivity|].
  inversion Ha as [|? ? Hp Hps]; subst. inversion Hb as [|? ? Bp Bps]; subst.
  cbn [flat_map map concat]. rewrite flat_map_app, (IH Hps Bps).
  rewrite kept_paragraph_items.
  - simpl. now rewrite app_nil_r.
  - destruct (anchored_has_part p Hp) as [f [m E]]. rewrite E in *.
    inversion Bp as [|? ? Bf _]; subst. simpl. now rewrite Bf.
Qed.

Lemma picture_items_runs sec : forall imgs,
  flat_map item_runs (flat_map (picture_items sec) imgs) = [].
Proof.
  induction imgs as [|i imgs IH]; [reflexivity|].
  cbn [flat_map]. rewrite flat_map_app, IH. unfold picture_items.
  destruct (image_size sec i) as [e|[w h]]; reflexivity.
Qed.

(** X8. No text is lost on the way into the document: when every text
    block of a page has a character that is not whitespace, as the
    visitor sees to, the runs of the paragraphs the page adds are the
    text blocks of the page, each once and in their order. *)
Theorem page_keeps_text_blocks (c : Converter) (page_content : PageContent) :
  Forall (fun b => blank (text b) = false) (text_blocks page_content) ->
  flat_map item_runs (docx_document (_process_page_content c page_content)) =
  flat_map item_runs (docx_document c) ++ text_blocks page_content.
Proof.
  intros H. destruct (process_page_items c page_content) as [Hd _].
  rewrite Hd, flat_map_app. f_equal. unfold page_items.
  rewrite flat_map_app, picture_items_runs, app_nil_r.
  destruct (grouping_partitions (text_blocks page_content)) as [Hc Ha].
  rewrite runs_of_paragraphs; [exact Hc|exact Ha|].
  rewrite group_is_reference.
  destruct (text_blocks page_content) as [|b rest]; [constructor|].
  inversion H; subst. apply stream_parts_Forall; auto.
Qed.

Lemma page_keeps_text_blocks_witness :
  flat_map item_runs
    (docx_document
       (_process_page_content new_document
          {| page_number := 0;
             text_blocks := [hello; fragment "World" 120 720];
             images := []; page_size := (612, 792) |})) =
  [hello; fragment "World" 120 720].
Proof.
  apply (page_keeps_text_blocks new_document
           {| page_number := 0;
              text_blocks := [hello; fragment "World" 120 720];
              images := []; page_size := (612, 792) |}).
  repeat constructor.
Defined.

End AssemblyExtras.

(** ** Pages of the document *)

Module PagesExtras.
Import Text Layout Images Spacing Assembly Convert Scenarios.
Import ImagesFacts AssemblyFacts ConvertFacts.

Lemma filter_break_items sec p : filter is_break (page_items sec p) = [].
Proof.
  pose proof (page_items_no_break sec p) as H.
  induction (page_items sec p) as [|i l IH]; [reflexivity|].
  inversion H as [|? ? Hi Hl]; subst. simpl. rewrite Hi. now apply IH.
Qed.

Lemma breaks_of_loop sec final : forall ps,
  length (filter is_break
            (flat_map (fun p => page_items sec p ++ break_after final p) ps)) =
  length (filter (fun p => negb (page_eqb p final)) ps).
Proof.
  induction ps as [|p ps IH]; [reflexivity|].
  cbn [flat_map filter]. rewrite !filter_app, filter_break_items, !length_app.
  rewrite IH. unfold break_after.
  destruct (negb (page_eqb p final)); reflexivity.
Qed.

Lemma filter_misses_one (A : Type) (f : A -> bool) : forall l a,
  In a l -> f a = false -> length (filter f l) < length l.
Proof.
  induction l as [|b l IH]; intros a Ha Hf; [destruct Ha|].
  simpl. destruct Ha as [->|Ha].
  - rewrite Hf. pose proof (filter_length_le f l). lia.
  - specialize (IH a Ha Hf). destruct (f b); simpl; lia.
Qed.

(** X9. Whatever pages are given, also pages given twice, the document
    has fewer page breaks than pages, and none when there is no page. *)
Theorem page_breaks_fewer_than_pages (new_section : DocSection)
    (template : option DocSection) (st : Stats)
    (extracted_content : ExtractedContent) :
  length (filter is_break
            (docx_document
               (create_docx_document new_section template st
                                     extracted_content)))
  <= length (pages extracted_content) - 1.
Proof.
  unfold create_docx_document.
  destruct (pages extracted_content) as [|first rest] eqn:E; [simpl; lia|].
  rewrite page_loop_items. cbn [docx_document section app].
  rewrite breaks_of_loop.
  assert (H : length (filter (fun p => negb (page_eqb p (last rest first)))
                             (first :: rest)) < length (first :: rest)).
  { apply filter_misses_one with (a := last rest first).
    - rewrite <- (last_cons _ rest first first).
      destruct (@exists_last _ (first :: rest)) as [ps [final Hl]];
        [discriminate|].
      rewrite Hl, last_last. apply in_or_app. right. now left.
    - now rewrite page_eqb_refl. }
  lia.
Qed.

Lemma in_page_loop sec final i : forall ps,
  In i (flat_map (fun p => page_items sec p ++ break_after final p) ps) ->
  i = PageBreak \/ exists p, In p ps /\ In i (page_items sec p).
Proof.
  intros ps H. apply in_flat_map in H. destruct H as [p [Hp Hi]].
  apply in_app_or in Hi. destruct Hi as [Hi|Hi].
  - right. now exists p.
  - left. unfold break_after in Hi.
    destruct (negb (page_eqb p final)); [|destruct Hi].
    destruct Hi as [<-|[]]. reflexivity.
Qed.

Lemma picture_items_none sec image_data : picture_items sec image_data = [].
Proof.
  unfold picture_items.
  now rewrite (ImagesFacts.image_size_no_inches sec image_data).
Qed.

Lemma page_items_no_picture sec page_content i :
  In i (page_items sec page_content) -> is_picture i = false.
Proof.
  unfold page_items. intros H. apply in_app_or in H. destruct H as [H|H].
  - apply in_flat_map in H. destruct H as [q [_ Hi]].
    unfold paragraph_items in Hi. destruct (blank _); [destruct Hi|].
    destruct Hi as [<-|[]]. reflexivity.
  - apply in_flat_map in H. destruct H as [img [_ Hi]].
    rewrite picture_items_none in Hi. destruct Hi.
Qed.

(** X10. The document the modern converter builds holds no picture,
    whatever images the pages have: every item of it is a paragraph of
    text or a page break. *)
Theorem document_has_no_picture (new_section : DocSection)
    (template : option DocSection) (st : Stats)
    (extracted_content : ExtractedContent) :
  Forall (fun i => is_picture i = false)
         (docx_document
            (create_docx_document new_section template st
                                  extracted_content)).
Proof.
  unfold create_docx_document.
  destruct (pages extracted_content) as [|first rest] eqn:E;
    [constructor|].
  rewrite page_loop_items. cbn [docx_document section app].
  apply Forall_forall. intros i Hi.
  apply in_page_loop in Hi. destruct Hi as [->|[p [_ Hi]]]; [reflexivity|].
  exact (page_items_no_picture _ p i Hi).
Qed.

(** The PDF of two pages, all its pages asked for. *)
Lemma pages_once_document_witness :
  exists content,
    converted_document two_page_run None 0 None None =
    Some (breaks_between
            (map (page_items
                    (_apply_template_formatting (new_section two_page_run)
                       (template two_page_run) content))
                 (Assembly.pages content))) /\
    length (Assembly.pages content) = 2%nat.
Proof.
  eexists. split.
  - eapply pages_once_document.
    + reflexivity.
    + cbn [page_indices]. apply select_range_NoDup.
  - reflexivity.
Defined.

End PagesExtras.

(** ** Image fitting *)

Module ImagesExtras.
Import Text Images Scenarios ImagesFacts.
Local Open Scope Q_scope.

(** *** The images of a page *)

Lemma enumerate_from_indexed page_idx : forall (images : list RawImage) i,
  map index (map (fun io => image_info page_idx (fst io) (snd io))
                 (enumerate_from i images)) = seq i (length images).
Proof.
  induction images as [|o images IH]; intros i; [reflexivity|].
  cbn [enumerate_from map length seq fst snd]. rewrite IH. f_equal.
  unfold image_info. destruct (decoded o) as [[[w h] f]|]; reflexivity.
Qed.

Lemma image_info_named page_idx img_idx o :
  name (image_info page_idx img_idx o) <> [] /\
  Images.page_number (image_info page_idx img_idx o) = page_idx /\
  data (image_info page_idx img_idx o) = raw_data o.
Proof.
  unfold image_info.
  destruct (decoded o) as [[[w h] f]|]; cbn [name Images.page_number data];
    (split; [|split; reflexivity]);
    destruct (raw_name o) as [[|c n]|]; discriminate.
Qed.

(** X29. The images of a page are recorded one for one and in their
    order: the record at place [i] has the index [i], every record has
    the number of the page and the bytes of its image, and no record
    has an empty name, also when the image has no name or an empty
    one. *)
Theorem extracted_images_indexed (images : list RawImage) (page_idx : nat) :
  map index (_extract_images_from_page images page_idx) =
    seq 0 (length images) /\
  map data (_extract_images_from_page images page_idx) =
    map raw_data images /\
  Forall (fun image_data =>
            name image_data <> [] /\
            Images.page_number image_data = page_idx)
         (_extract_images_from_page images page_idx).
Proof.
  unfold _extract_images_from_page. split; [apply enumerate_from_indexed|].
  generalize 0%nat. induction images as [|o images IH]; intros i.
  - split; [reflexivity|constructor].
  - cbn [enumerate_from map fst snd]. destruct (IH (S i)) as [H1 H2].
    split.
    + rewrite H1. f_equal. apply image_info_named.
    + constructor; [|exact H2].
      split; apply (image_info_named page_idx i o).
Qed.

(** *** The computation of [converters/modern_pdf2docx_converter.py] *)

(** The native size the computation scales: the one given when it is
    positive, 6 by 8 inches otherwise. *)
Lemma image_size_converters_scaled section image_data :
  exists nw nh,
    0 < nw /\ 0 < nh /\
    image_size_converters section image_data =
    inr (nw * Qmin (Qmin (max_width_inches section / nw)
                         (max_height_inches section / nh)) 1,
         nh * Qmin (Qmin (max_width_inches section / nw)
                         (max_height_inches section / nh)) 1).
Proof.
  unfold image_size_converters.
  rewrite (div_nonzero (inject_Z (width image_data)) 72) by discriminate.
  cbn [bind].
  rewrite (div_nonzero (inject_Z (height image_data)) 72) by discriminate.
  cbn [bind].
  destruct (Qle_bool (inject_Z (width image_data) / 72) 0) eqn:Ew;
    [|destruct (Qle_bool (inject_Z (height image_data) / 72) 0) eqn:Eh];
    cbn [orb].
  - exists 6, 8. split; [reflexivity|]. split; [reflexivity|].
    rewrite !div_nonzero by discriminate. reflexivity.
  - exists 6, 8. split; [reflexivity|]. split; [reflexivity|].
    rewrite !div_nonzero by discriminate. reflexivity.
  - assert (Hw : 0 < inject_Z (width image_data) / 72).
    { apply Qnot_le_lt. intros H. apply Qle_bool_iff in H. congruence. }
    assert (Hh : 0 < inject_Z (height image_data) / 72).
    { apply Qnot_le_lt. intros H. apply Qle_bool_iff in H. congruence. }
    exists (inject_Z (width image_data) / 72).
    exists (inject_Z (height image_data) / 72).
    split; [assumption|]. split; [assumption|].
    rewrite !div_nonzero by (now apply pos_nonzero). reflexivity.
Qed.

(** X12. The computation of [converters/modern_pdf2docx_converter.py]
    returns a size for every image and every section, also for a native
    size that is zero or negative: it never divides by zero. *)
Theorem image_size_converters_never_fails (section : DocSection)
    (image_data : ImageData) :
  exists final_width final_height,
    image_size_converters section image_data =
    inr (final_width, final_height).
Proof.
  destruct (image_size_converters_scaled section image_data)
    as [nw [nh [_ [_ E]]]].
  rewrite E. eexists. eexists. reflexivity.
Qed.

End ImagesExtras.

(** ** Page selection, extraction and results *)

Module ConvertExtras.
Import Text Layout Images Assembly Convert Scenarios.
Import AssemblyFacts ConvertFacts.

Lemma range_bounds start stop :
  Forall (fun p => (start <= p < stop)%Z) (range start stop).
Proof.
  unfold range. apply Forall_map, Forall_forall. intros i Hi.
  apply in_seq in Hi. lia.
Qed.

Lemma range_increasing start stop : StronglySorted Z.lt (range start stop).
Proof.
  unfold range. generalize (Z.to_nat (stop - start)) as n.
  generalize 0%nat as k. intros k n. revert k.
  induction n as [|n IH]; intros k; cbn [seq map]; constructor.
  - apply IH.
  - apply Forall_map, Forall_forall. intros i Hi. apply in_seq in Hi.
    cbv beta. lia.
Qed.

(** X14. Every page number selected is a page of the PDF: it is at least
    0 and below the number of pages, whatever first page, last page and
    list of pages are asked for.  When no list of pages is given the
    numbers selected are strictly increasing. *)
Theorem selected_pages_exist (total_pages start_page : Z)
    (end_page : option Z) (pages : option (list Z)) :
  Forall (fun p => (0 <= p < total_pages)%Z)
         (select_pages total_pages start_page end_page pages) /\
  StronglySorted Z.lt (select_pages total_pages start_page end_page None).
Proof.
  split; [|apply range_increasing].
  assert (R : forall stop, (stop <= total_pages)%Z ->
                Forall (fun p => (0 <= p < total_pages)%Z)
                       (range (Z.max 0 start_page) stop)).
  { intros stop Hs. eapply Forall_impl; [|apply range_bounds].
    simpl. intros p Hp. lia. }
  assert (D : Forall (fun p => (0 <= p < total_pages)%Z)
                (range (Z.max 0 start_page)
                   match end_page with
                   | Some e => if (e =? 0)%Z then total_pages
                               else Z.min total_pages e
                   | None => total_pages
                   end)).
  { apply R. destruct end_page as [e|]; [|lia].
    destruct (e =? 0)%Z; lia. }
  unfold select_pages. destruct pages as [[|p ps]|]; try exact D.
  apply Forall_forall. intros q Hq. apply filter_In in Hq.
  destruct Hq as [_ Hq]. apply andb_prop in Hq. destruct Hq as [H1 H2].
  apply Z.leb_le in H1. apply Z.ltb_lt in H2. lia.
Qed.

Lemma fold_count_page : forall contents st,
  let st' :=
    fold_left
      (fun st c => count_page st (length (text_blocks c)) (length (images c)))
      contents st in
  pages_processed st' = pages_processed st + length contents /\
  text_blocks_extracted st' =
    text_blocks_extracted st
    + list_sum (map (fun c => length (text_blocks c)) contents) /\
  images_extracted st' =
    images_extracted st + list_sum (map (fun c => length (images c)) contents) /\
  spacing_fixes_applied st' = spacing_fixes_applied st.
Proof.
  induction contents as [|c cs IH]; intros st; cbv zeta; cbn [fold_left].
  - simpl. repeat split; lia.
  - specialize (IH (count_page st (length (text_blocks c)) (length (images c)))).
    cbv zeta in IH. destruct IH as [H1 [H2 [H3 H4]]].
    rewrite H1, H2, H3, H4. cbn [count_page pages_processed
      text_blocks_extracted images_extracted spacing_fixes_applied
      map length]. unfold list_sum. cbn [fold_right]. repeat split; lia.
Qed.

(** X15. What an extraction that succeeds returns and counts: one page
    content for each page number selected, in their order, each made from
    the page of the PDF of that number; [total_pages] is their number;
    the counters of pages, text blocks and images grow by the number of
    pages, of their text blocks and of their images, and the counter of
    spacing fixes is left alone. *)
Theorem extraction_counts (pdf : PdfFile) (st st' : Stats)
    (password : option str) (start_page : Z) (end_page : option Z)
    (pages : option (list Z)) (content : ExtractedContent) :
  extract_pdf_content (inr pdf) st password start_page end_page pages =
  (Some content, st') ->
  page_indices content =
    select_pages (Z.of_nat (length (pdf_pages pdf)))
                 start_page end_page pages /\
  total_pages content = length (page_indices content) /\
  Assembly.pages content =
    map (fun i => _extract_page_content
                    (nth (Z.to_nat i) (pdf_pages pdf) no_page) (Z.to_nat i))
        (page_indices content) /\
  Forall (fun i => (Z.to_nat i < length (pdf_pages pdf))%nat)
         (page_indices content) /\
  pages_processed st' = pages_processed st + length (Assembly.pages content) /\
  text_blocks_extracted st' =
    text_blocks_extracted st
    + list_sum (map (fun c => length (text_blocks c)) (Assembly.pages content)) /\
  images_extracted st' =
    images_extracted st
    + list_sum (map (fun c => length (images c)) (Assembly.pages content)) /\
  spacing_fixes_applied st' = spacing_fixes_applied st.
Proof.
  unfold extract_pdf_content.
  set (idx := select_pages (Z.of_nat (length (pdf_pages pdf)))
                           start_page end_page pages).
  set (contents :=
         map (fun page_idx =>
                _extract_page_content
                  (nth (Z.to_nat page_idx) (pdf_pages pdf) no_page)
                  (Z.to_nat page_idx)) idx).
  intros H.
  assert (E : (Some {| Assembly.pages := contents;
                       total_pages := length idx;
                       page_indices := idx |},
               fold_left
                 (fun st c =>
                    count_page st (length (text_blocks c)) (length (images c)))
                 contents st) = (Some content, st')).
  { destruct (pages_readable pdf password); [exact H|discriminate]. }
  clear H. injection E as <- <-. cbn [page_indices total_pages Assembly.pages].
  split; [reflexivity|]. split; [reflexivity|]. split; [reflexivity|].
  split.
  - destruct (selected_pages_exist (Z.of_nat (length (pdf_pages pdf)))
                start_page end_page pages) as [Hr _].
    eapply Forall_impl; [|exact Hr]. simpl. intros i Hi. lia.
  - apply fold_count_page.
Qed.

Lemma extraction_counts_witness :
  total_pages two_page_content = 2%nat /\
  page_indices two_page_content = [0; 1]%Z.
Proof.
  destruct (extraction_counts two_page_pdf no_stats
              (count_page (count_page no_stats 2 0) 1 1)
              None 0 None None two_page_content)
    as [H1 [H2 _]]; [reflexivity|].
  split; [rewrite H2, H1; reflexivity|rewrite H1; reflexivity].
Defined.

(** X16. When the modern converter fails to extract and what a success
    stands for.  It returns "Failed to extract" when the reader raises,
    and when the PDF is encrypted and no password, an empty one or one
    that does not open it is given.  It returns a success only when the
    reader opened the PDF, the pages could be read and the save raised
    nothing; the success then carries the output path and the number of
    page numbers selected. *)
Theorem convert_outcomes (w : World) (output_path : str)
    (password : option str) (start_page : Z) (end_page : option Z)
    (pages : option (list Z)) :
  (forall e, reader w = inl e ->
     convert_pdf_to_docx w output_path password start_page end_page pages =
     Error FailedToExtract) /\
  (forall pdf, reader w = inr pdf -> is_encrypted pdf = true ->
     match password with
     | Some (c :: p) => decrypts pdf (c :: p) = false
     | _ => True
     end ->
     convert_pdf_to_docx w output_path password start_page end_page pages =
     Error FailedToExtract) /\
  (forall path n,
     convert_pdf_to_docx w output_path password start_page end_page pages =
     Success path n ->
     path = output_path /\ save w = inr tt /\
     exists pdf,
       reader w = inr pdf /\ pages_readable pdf password = true /\
       n = length (select_pages (Z.of_nat (length (pdf_pages pdf)))
                                start_page end_page pages)).
Proof.
  unfold convert_pdf_to_docx, extract_pdf_content.
  split; [|split].
  - intros e ->. reflexivity.
  - intros pdf -> He Hp.
    assert (R : pages_readable pdf password = false).
    { unfold pages_readable. rewrite He.
      destruct password as [[|c p]|]; auto. }
    rewrite R. reflexivity.
  - intros path n. destruct (reader w) as [e|pdf]; [discriminate|].
    destruct (pages_readable pdf password) eqn:R; [|discriminate].
    cbn [total_pages]. destruct (save w) as [e|[]];
      cbn [bind ret try_except]; [discriminate|].
    intros [= <- <-]. split; [reflexivity|]. split; [reflexivity|].
    exists pdf. auto.
Qed.

(** An encrypted PDF and a password that does not open it. *)
Lemma convert_outcomes_witness :
  convert_pdf_to_docx locked_run (of_string "out.docx")
                      (Some (of_string "guess")) 0 None None =
  Error FailedToExtract.
Proof.
  apply (proj1 (proj2 (convert_outcomes locked_run (of_string "out.docx")
                         (Some (of_string "guess")) 0 None None))
           locked_pdf); reflexivity.
Defined.

(** A run of the advanced converter that leaves a file of 2048 bytes. *)
Lemma advanced_success_checked_witness :
  exists size, file_size advanced_saved = Some size /\ (0 < size)%N.
Proof.
  apply (advanced_success_checked advanced_saved (of_string "out.docx")
           None 0 None None).
  reflexivity.
Defined.

(** Pages 0, 1 and 2 in this order. *)
Lemma advanced_loop_breaks_witness :
  advanced_page_loop page_body [0; 1; 2]%Z =
  breaks_between (map page_body [0; 1; 2]%Z).
Proof.
  apply (advanced_loop_breaks page_body 0 [1; 2]%Z).
  repeat constructor.
Defined.

End ConvertExtras.

(** ** Fonts and the visitor *)

Module FontsExtras.
Import Text Re Layout Assembly Fonts ReFacts LayoutFacts.

Lemma iter_class_runs (p : char -> bool) (step : str -> list result) :
  (forall s : str, step s =
     match s return list result with
     | a :: s' => if p a then [([a], [], s')] else []
     | [] => []
     end) ->
  forall n s, length s <= n -> iter step n s = class_runs p s.
Proof.
  intros Hstep. induction n as [|n IH]; intros s Hn.
  - destruct s; [|simpl in Hn; lia]. simpl. now rewrite Hstep.
  - destruct s as [|a t]; simpl; rewrite Hstep; [reflexivity|].
    simpl in Hn. destruct (p a); [|reflexivity].
    simpl. rewrite app_nil_r, IH by lia. reflexivity.
Qed.

Lemma after_after m1 g1 m2 g2 x :
  after m1 g1 (after m2 g2 x) = after (m1 ++ m2) (g2 ++ g1) x.
Proof. destruct x as [[m3 g3] s3]. simpl. now rewrite !app_assoc. Qed.

Lemma then_after k m g x :
  then_ k (after m g x) = map (after m g) (then_ k x).
Proof.
  destruct x as [[m2 g2] s2]. simpl. rewrite map_map.
  apply map_ext. intros y. symmetry. apply after_after.
Qed.

Lemma flat_map_then_after k m g : forall l,
  flat_map (then_ k) (map (after m g) l) =
  map (after m g) (flat_map (then_ k) l).
Proof.
  induction l as [|x l IH]; [reflexivity|].
  simpl. now rewrite map_app, IH, then_after.
Qed.

(** A repeated class and then a character that is not of the class: the
    whole run of the class has to be taken. *)
Lemma run_class_then_char (p : char -> bool) (c : char) :
  p c = false ->
  forall s,
    flat_map (then_ (run (Chr c))) (class_runs p s) =
    match take_while p s, drop_while p s with
    | _ :: _, d :: rest =>
        if N.eqb d c then [(take_while p s ++ [d], [], rest)] else []
    | _, _ => []
    end.
Proof.
  intros Hc. induction s as [|a t IH]; [reflexivity|].
  cbn [class_runs take_while drop_while]. destruct (p a) eqn:Ha;
    [|reflexivity].
  rewrite flat_map_app, flat_map_then_after, IH. cbn [flat_map then_].
  rewrite app_nil_r.
  destruct t as [|b t']; [reflexivity|].
  cbn [take_while drop_while run]. destruct (p b) eqn:Hb.
  - assert (Hbc : N.eqb b c = false).
    { destruct (N.eqb_spec b c) as [->|]; [congruence|reflexivity]. }
    rewrite Hbc. cbn [map]. rewrite app_nil_r.
    destruct (drop_while p t') as [|d rest]; [reflexivity|].
    destruct (N.eqb d c); reflexivity.
  - cbn [map app]. destruct (N.eqb b c); reflexivity.
Qed.

Lemma re_match_subset_prefix s :
  re_match subset_prefix s =
  match take_while upper s, drop_while upper s with
  | _ :: _, d :: rest =>
      if N.eqb d plus_sign then Some (take_while upper s ++ [d], [], rest)
      else None
  | _, _ => None
  end.
Proof.
  unfold re_match, subset_prefix. cbn [run].
  rewrite (iter_class_runs upper (run (Cls upper)))
    by (reflexivity || lia).
  rewrite (run_class_then_char upper plus_sign) by reflexivity.
  destruct (take_while upper s); [reflexivity|].
  destruct (drop_while upper s) as [|d rest]; [reflexivity|].
  destruct (N.eqb d plus_sign); reflexivity.
Qed.

(** X17. The prefix of a font subset is taken off a font name: when the
    name starts with one or more of the letters A to Z followed by [+],
    what follows the [+] is kept; any other name is left as it is. *)
Theorem subset_prefix_stripped (font_name : str) :
  strip_subset_prefix font_name =
  match take_while upper font_name, drop_while upper font_name with
  | _ :: _, d :: rest => if N.eqb d plus_sign then rest else font_name
  | _, _ => font_name
  end.
Proof.
  unfold strip_subset_prefix, re_sub_at_start.
  rewrite re_match_subset_prefix.
  destruct (take_while upper font_name); [reflexivity|].
  destruct (drop_while upper font_name) as [|d rest]; [reflexivity|].
  destruct (N.eqb d plus_sign); reflexivity.
Qed.

Lemma to_line_end_no_newline : forall r,
  ~ In newline r -> to_line_end r = Some [].
Proof.
  induction r as [|c t IH]; intros H; [reflexivity|].
  simpl. destruct (N.eqb_spec c newline) as [->|_].
  - exfalso. apply H. now left.
  - apply IH. intros Hin. apply H. now right.
Qed.

(** X18. The variant is taken off a font name: for a name without a
    newline what is kept is what comes before the first comma or hyphen,
    so that neither a comma nor a hyphen is left. *)
Theorem variant_stripped (font_name : str) :
  ~ In newline font_name ->
  strip_variant font_name =
    take_while (fun c => negb (separator c)) font_name /\
  ~ In comma (strip_variant font_name) /\
  ~ In hyphen (strip_variant font_name).
Proof.
  intros H.
  assert (E : strip_variant font_name =
              take_while (fun c => negb (separator c)) font_name).
  { induction font_name as [|c t IH]; [reflexivity|].
    assert (Ht : ~ In newline t) by (intros Hin; apply H; now right).
    cbn [strip_variant take_while]. destruct (separator c); cbn [negb].
    - now rewrite to_line_end_no_newline.
    - f_equal. now apply IH. }
  rewrite E. clear E H. split; [reflexivity|].
  induction font_name as [|c t [IH1 IH2]]; [simpl; tauto|].
  cbn [take_while]. destruct (separator c) eqn:S; cbn [negb]; [simpl; tauto|].
  unfold separator in S. apply orb_false_elim in S. destruct S as [S1 S2].
  apply N.eqb_neq in S1, S2.
  split; intros [Hc|Hin]; auto.
Qed.

Lemma variant_stripped_witness :
  strip_variant (of_string "Times-BoldItalic") = of_string "Times".
Proof.
  destruct (variant_stripped (of_string "Times-BoldItalic")) as [E _].
  - intros H. repeat (destruct H as [H|H]; [discriminate|]). destruct H.
  - rewrite E. reflexivity.
Defined.

(** X19. The name [_clean_font_name] returns is never empty, whatever
    the name given and whatever [str.lower] does. *)
Theorem clean_font_name_not_empty (lower_case : str -> str)
    (font_name : str) :
  _clean_font_name lower_case font_name <> [].
Proof.
  unfold _clean_font_name. destruct font_name as [|c n]; [discriminate|].
  destruct (str_eqb (c :: n) unknown); [discriminate|].
  destruct (find _ font_mapping) as [m|] eqn:F.
  - apply find_some in F. destruct F as [F _].
    repeat (destruct F as [<-|F]; [discriminate|]). destruct F.
  - destruct (strip_variant (strip_subset_prefix (c :: n))); discriminate.
Qed.

Lemma collect_not_blank : forall events,
  Forall (fun b => blank (text b) = false /\ ~ (font_size b == 0)%Q)
         (collect events).
Proof.
  induction events as [|e events IH]; [constructor|].
  unfold collect in *. cbn [flat_map]. apply Forall_app. split; [|exact IH].
  unfold text_visitor. destruct (blank (ev_text e)) eqn:B; [constructor|].
  destruct (ev_tm e) as [[[[[a b] c] d] tx] ty].
  repeat constructor; cbn [text font_size]; [assumption|].
  destruct (Qeq_bool (ev_font_size e) 0) eqn:Z; [discriminate|].
  now apply Qeq_bool_neq.
Qed.

(** X21. Every text block extracted from a page has a character that is
    not whitespace and a font size that is not zero, also when the
    visitor fails and the plain text of the page is used; and there are
    at most as many blocks as calls of the visitor, plus one for the
    plain text. *)
Theorem extracted_blocks_not_blank (t : PageText) :
  Forall (fun b => blank (text b) = false /\ ~ (font_size b == 0)%Q)
         (extract_text_with_layout t) /\
  length (extract_text_with_layout t) <=
    match t with
    | Visited events => length events
    | VisitorFailed events _ => S (length events)
    end.
Proof.
  assert (L : forall events, length (collect events) <= length events).
  { induction events as [|e events IH]; [reflexivity|].
    unfold collect in *. cbn [flat_map]. rewrite length_app.
    destruct (text_visitor e); simpl; lia. }
  unfold extract_text_with_layout, _extract_text_with_layout. split.
  - eapply Permutation_Forall; [apply sort_blocks_perm|].
    destruct t as [events|events simple_text]; [apply collect_not_blank|].
    apply Forall_app. split; [apply collect_not_blank|].
    destruct (blank simple_text) eqn:B; repeat constructor; [assumption|].
    discriminate.
  - rewrite <- (Permutation_length (sort_blocks_perm _)).
    destruct t as [events|events simple_text]; [apply L|].
    rewrite length_app. specialize (L events).
    destruct (blank simple_text); simpl; lia.
Qed.

End FontsExtras.

(** ** The text of the advanced converter *)

Module AdvancedTextExtras.
Import Text Assembly Fonts AdvancedText.

(** *** Colours and flags *)

(** X22. The red, green and blue of a colour are each between 0 and
    255, and together they are the 24 low bits of the colour: for a
    colour of 24 bits, 65536 red + 256 green + blue is the colour. *)
Theorem rgb_components (c : Z) :
  let '(r, g, b) := rgb c in
  (0 <= r < 256)%Z /\ (0 <= g < 256)%Z /\ (0 <= b < 256)%Z /\
  (r * 65536 + g * 256 + b = c mod 16777216)%Z /\
  ((0 <= c < 16777216)%Z -> (r * 65536 + g * 256 + b = c)%Z).
Proof.
  unfold rgb. change 255%Z with (Z.ones 8).
  rewrite !Z.land_ones, !Z.shiftr_div_pow2 by lia.
  change (2 ^ 8)%Z with 256%Z. change (2 ^ 16)%Z with 65536%Z.
  repeat split; try (Z.div_mod_to_equations; lia).
Qed.



(** *** The lines *)

Lemma add_to_line_keys k b : forall lines,
  map fst (add_to_line k b lines) =
  if existsb (Z.eqb k) (map fst lines) then map fst lines
  else map fst lines ++ [k].
Proof.
  induction lines as [|[k' bs] rest IH]; [reflexivity|].
  cbn [add_to_line map fst existsb]. destruct (Z.eqb k k'); [reflexivity|].
  cbn [map fst orb]. rewrite IH.
  destruct (existsb (Z.eqb k) (map fst rest)); reflexivity.
Qed.

Lemma add_to_line_NoDup k b lines :
  NoDup (map fst lines) -> NoDup (map fst (add_to_line k b lines)).
Proof.
  intros H. rewrite add_to_line_keys.
  destruct (existsb (Z.eqb k) (map fst lines)) eqn:E; [assumption|].
  apply NoDup_app; [assumption|repeat constructor; intros []|].
  intros a Ha [Ek|[]]. subst a.
  assert (T : existsb (Z.eqb k) (map fst lines) = true)
    by (apply existsb_exists; exists k; split; [assumption|apply Z.eqb_refl]).
  congruence.
Qed.

Lemma add_to_line_perm k b : forall lines,
  Permutation (flat_map snd (add_to_line k b lines))
              (b :: flat_map snd lines).
Proof.
  induction lines as [|[k' bs] rest IH]; [reflexivity|].
  cbn [add_to_line]. destruct (Z.eqb k k'); cbn [flat_map snd].
  - rewrite <- app_assoc. symmetry. apply Permutation_middle.
  - rewrite IH. symmetry. apply Permutation_middle.
Qed.

Lemma add_to_line_same b : forall lines,
  Forall same_line lines ->
  Forall same_line (add_to_line (y_coord b) b lines).
Proof.
  induction lines as [|[k' bs] rest IH]; intros H.
  - repeat constructor; discriminate.
  - inversion H as [|? ? [H1 H2] Hr]; subst. cbn [add_to_line].
    destruct (Z.eqb_spec (y_coord b) k') as [E|_].
    + constructor; [|assumption]. split; cbn [fst snd] in *.
      * destruct bs; discriminate.
      * apply Forall_app. split; [assumption|]. now constructor.
    + constructor; [now split|]. now apply IH.
Qed.

Lemma group_lines_facts : forall blocks acc,
  NoDup (map fst acc) -> Forall same_line acc ->
  NoDup (map fst (fold_left (fun lines block =>
                     add_to_line (y_coord block) block lines)
                   blocks acc)) /\
  Forall same_line (fold_left (fun lines block =>
                      add_to_line (y_coord block) block lines)
                    blocks acc) /\
  Permutation (flat_map snd (fold_left (fun lines block =>
                      add_to_line (y_coord block) block lines)
                    blocks acc))
              (blocks ++ flat_map snd acc).
Proof.
  induction blocks as [|b bs IH]; intros acc Hn Hs.
  - auto.
  - cbn [fold_left].
    destruct (IH (add_to_line (y_coord b) b acc)
                 (add_to_line_NoDup _ b acc Hn) (add_to_line_same b acc Hs))
      as [H1 [H2 H3]].
    split; [exact H1|]. split; [exact H2|].
    rewrite H3, add_to_line_perm. cbn [app]. symmetry.
    apply Permutation_middle.
Qed.

Lemma insert_line_perm l : forall ls, Permutation (l :: ls) (insert_line l ls).
Proof.
  induction ls as [|m ls IH]; simpl; [reflexivity|].
  destruct (Z.ltb (fst l) (fst m)); [reflexivity|].
  rewrite perm_swap. now constructor.
Qed.

Lemma insert_line_sorted l : forall ls,
  StronglySorted key_before ls -> ~ In (fst l) (map fst ls) ->
  StronglySorted key_before (insert_line l ls).
Proof.
  induction ls as [|m ls IH]; intros Hs Hn; simpl.
  - repeat constructor.
  - inversion Hs as [|? ? Hs' Hf]; subst.
    destruct (Z.ltb_spec (fst l) (fst m)) as [L|L].
    + constructor; [assumption|]. constructor; [assumption|].
      eapply Forall_impl; [|exact Hf]. unfold key_before. intros d Hd. lia.
    + constructor.
      * apply IH; [assumption|]. intros Hin. apply Hn. now right.
      * eapply Permutation_Forall; [apply insert_line_perm|].
        constructor; [|assumption]. unfold key_before.
        assert (fst m <> fst l) by (intros E; apply Hn; left; exact E). lia.
Qed.

Lemma sorted_lines_facts : forall ls acc,
  StronglySorted key_before acc -> NoDup (map fst (ls ++ acc)) ->
  StronglySorted key_before (fold_left (fun acc l => insert_line l acc) ls acc)
  /\ Permutation (ls ++ acc)
                 (fold_left (fun acc l => insert_line l acc) ls acc).
Proof.
  induction ls as [|l ls IH]; intros acc Hs Hn; cbn [fold_left].
  - split; [assumption|reflexivity].
  - cbn [app map] in Hn. inversion Hn as [|? ? Hl Hn']; subst.
    assert (P : Permutation (ls ++ insert_line l acc) (l :: ls ++ acc)).
    { rewrite <- insert_line_perm. symmetry. apply Permutation_middle. }
    destruct (IH (insert_line l acc)) as [H1 H2].
    + apply insert_line_sorted; [assumption|].
      intros Hin. apply Hl. rewrite map_app. apply in_or_app. now right.
    + eapply Permutation_NoDup;
        [symmetry; apply Permutation_map; exact P|].
      cbn [map]. now constructor.
    + split; [exact H1|]. rewrite <- H2. cbn [app]. now symmetry.
Qed.

Lemma insert_span_perm b : forall l, Permutation (b :: l) (insert_span b l).
Proof.
  induction l as [|c l IH]; simpl; [reflexivity|].
  destruct (Layout.Qlt_bool (x0 b) (x0 c)); [reflexivity|].
  rewrite perm_swap. now constructor.
Qed.

Lemma insert_span_sorted b : forall l,
  StronglySorted (fun b c => (x0 b <= x0 c)%Q) l ->
  StronglySorted (fun b c => (x0 b <= x0 c)%Q) (insert_span b l).
Proof.
  induction l as [|c l IH]; intros Hl; simpl.
  - repeat constructor.
  - inversion Hl as [|? ? Hs Hf]; subst. unfold Layout.Qlt_bool.
    destruct (Qle_bool (x0 c) (x0 b)) eqn:E; cbn [negb].
    + apply Qle_bool_iff in E. constructor; [auto|].
      eapply Permutation_Forall; [apply insert_span_perm|]. now constructor.
    + assert (L : (x0 b < x0 c)%Q).
      { apply Qnot_le_lt. intros H. apply Qle_bool_iff in H. congruence. }
      constructor; [assumption|]. constructor; [now apply Qlt_le_weak|].
      eapply Forall_impl; [|exact Hf]. simpl. intros d Hd.
      apply Qle_trans with (x0 c); [now apply Qlt_le_weak|assumption].
Qed.

Lemma sort_line_facts : forall l acc,
  StronglySorted (fun b c => (x0 b <= x0 c)%Q) acc ->
  StronglySorted (fun b c => (x0 b <= x0 c)%Q)
                 (fold_left (fun acc b => insert_span b acc) l acc) /\
  Permutation (l ++ acc) (fold_left (fun acc b => insert_span b acc) l acc).
Proof.
  induction l as [|b l IH]; intros acc Hs; cbn [fold_left].
  - split; [assumption|reflexivity].
  - destruct (IH (insert_span b acc) (insert_span_sorted b acc Hs)) as [H1 H2].
    split; [exact H1|]. rewrite <- H2, <- insert_span_perm. cbn [app].
    apply Permutation_middle.
Qed.

Lemma sort_line_perm l : Permutation l (sort_line l).
Proof.
  destruct (sort_line_facts l []) as [_ H]; [constructor|].
  now rewrite app_nil_r in H.
Qed.

Lemma sorted_flat_map : forall ls : list (Z * list Span),
  Permutation (flat_map snd (map (fun l => (fst l, sort_line (snd l))) ls))
              (flat_map snd ls).
Proof.
  induction ls as [|l ls IH]; [reflexivity|].
  cbn [map flat_map snd]. apply Permutation_app; [|exact IH].
  symmetry. apply sort_line_perm.
Qed.

(** X24. The lines of a page in the advanced converter: the integer
    parts of the tops of the lines are strictly increasing; a line has at
    least one block, every block of it has that integer part for its
    top, and its blocks are ordered from left to right; the blocks of
    the lines are the blocks given, each once. *)
Theorem text_lines_ordered (text_blocks : list Span) :
  StronglySorted Z.lt (map fst (text_lines text_blocks)) /\
  Forall line_ok (text_lines text_blocks) /\
  Permutation (flat_map snd (text_lines text_blocks)) text_blocks.
Proof.
  unfold text_lines, sorted_lines, group_lines.
  destruct (group_lines_facts text_blocks [] (NoDup_nil _) (Forall_nil _))
    as [G1 [G2 G3]].
  set (gl := fold_left _ text_blocks []) in *.
  destruct (sorted_lines_facts gl []) as [S1 S2];
    [constructor|now rewrite app_nil_r|].
  rewrite app_nil_r in S2.
  set (sl := fold_left _ gl []) in *.
  split; [|split].
  - rewrite map_map. cbn [fst].
    clear -S1. induction S1 as [|l ls Hs IH Hf]; cbn [map]; constructor.
    + exact IH.
    + apply Forall_map. exact Hf.
  - apply Forall_map.
    eapply Forall_impl; [|eapply Permutation_Forall; [exact S2|exact G2]].
    intros [k bs] [H1 H2]. cbn [fst snd] in *. split; [|split]; cbn [fst snd].
    + intros E. apply H1.
      apply Permutation_nil. rewrite <- E. symmetry. apply sort_line_perm.
    + eapply Permutation_Forall; [apply sort_line_perm|exact H2].
    + apply sort_line_facts. constructor.
  - rewrite sorted_flat_map.
    rewrite <- (Permutation_flat_map snd S2), G3. now rewrite app_nil_r.
Qed.

End AdvancedTextExtras.
